(** * Plants as C-Space navigators: the growth-state update engine

    A shallow embedding of [hooks/usePlantCSpace.ts] and
    [types/plant-types.ts].

    A JavaScript [number] is an IEEE 754 binary64 value, which is what
    Rocq's primitive [float] is: [+], [-], [*], [/], [Math.sqrt],
    [Math.abs] and the comparisons are the kernel's operations, NaN and
    the infinities included, so the definitions below evaluate to the
    values the program computes.  [Math.tanh], [Math.log1p], [Math.cos]
    and [Math.sin] are parameters, [Math.random] is a sequence of draws,
    and the conversion of a number to a string is a parameter of the
    paths effect.  Array lengths, node ids and ages hold integers and are
    modelled as [nat] and [Z]. *)

From Stdlib Require Import ZArith Bool List String Ascii Floats Lia.
From Stdlib Require Import DecimalString.
From stdpp Require Import base list.
Import ListNotations.

Set Warnings "-inexact-float".
Local Open Scope float_scope.

(** ** The part of the JavaScript [Math] object the hook uses *)

Module JS.

(** [Math.max(a, b)]: NaN if either argument is NaN, and +0 is larger
    than -0. *)
Definition Math_max (a b : float) : float :=
  if is_nan a || is_nan b then nan
  else if a <? b then b
  else if b <? a then a
  else match classify a with NZero => b | _ => a end.

(** [Math.min(a, b)]: NaN if either argument is NaN, and -0 is smaller
    than +0. *)
Definition Math_min (a b : float) : float :=
  if is_nan a || is_nan b then nan
  else if b <? a then b
  else if a <? b then a
  else match classify b with NZero => b | _ => a end.

(** [Math.sign(x)]: NaN, 1, -1, or the zero it was given. *)
Definition Math_sign (x : float) : float :=
  if is_nan x then nan
  else if 0 <? x then 1
  else if x <? 0 then -1
  else x.

Definition Math_abs (x : float) : float := abs x.
Definition Math_sqrt (x : float) : float := sqrt x.

(** [Math.pow(x, 2)]: the engines return the product [x * x] for the
    exponent 2. *)
Definition Math_pow2 (x : float) : float := x * x.

Definition Math_PI : float := 3.141592653589793.

(** The functions whose accuracy ECMAScript leaves to the engine
    ("implementation-approximated"); the development is parametric in
    them. *)
Class MathLib := {
  Math_tanh : float -> float;
  Math_log1p : float -> float;
  Math_cos : float -> float;
  Math_sin : float -> float
}.

(** [Math.random()]: the sequence of draws the engine will hand out and
    the number of draws already taken. *)
Record Rng := mkRng { draws : nat -> float; cursor : nat }.

Definition Math_random (g : Rng) : float * Rng :=
  (draws g (cursor g), mkRng (draws g) (S (cursor g))).

(** A source that returns the same value on every call. *)
Definition constantRng (c : float) : Rng := mkRng (fun _ => c) 0.

End JS.
Export JS.

(** ** types/plant-types.ts *)

Record Vector2D := mkVector2D { x : float; y : float }.

Record PlantNode := mkPlantNode {
  id : nat;
  position : Vector2D;
  energy : float;               (* E(p) *)
  coherence : float;            (* H *)
  distortion : float;           (* D *)
  temporalComplexity : float;   (* T *)
  spatialComplexity : float;    (* S(p) *)
  parent : option nat;          (* number | null *)
  age : Z
}.

Inductive ResourceType := light | support | obstacle.

(** The fields [position] and [type] of the interface are [rposition] and
    [rtype] here. *)
Record ResourcePoint := mkResourcePoint {
  rposition : Vector2D;
  intensity : float;
  rtype : ResourceType
}.

(** ** hooks/usePlantCSpace.ts: constants *)

Definition ALPHA : float := 0.05.
Definition BETA : float := 0.1.
Definition EPSILON : float := 1e-9.
Definition D_CRITICAL : float := 2.5.
Definition GROWTH_RATE : float := 5.
Definition MAX_ENERGY_DISTANCE : float := 200.
Definition COMPLEXITY_GRADIENT_SCALE : float := 0.01.

(** ** The environment field evaluator *)

Section Fields.

Variable resources : list ResourcePoint.

(** [Math.sqrt(Math.pow(a.x - b.x, 2) + Math.pow(a.y - b.y, 2))] *)
Definition distanceBetween (a b : Vector2D) : float :=
  Math_sqrt (Math_pow2 (x a - x b) + Math_pow2 (y a - y b)).

(** One round of the [resources.forEach] of [calculateSpatialComplexity]. *)
Definition complexityStep (pos : Vector2D) (complexity : float)
    (resource : ResourcePoint) : float :=
  let distance := distanceBetween pos (rposition resource) in
  if distance <? 100 then
    match rtype resource with
    | obstacle => complexity + intensity resource * (1 - distance / 100)
    | support => complexity - intensity resource * (1 - distance / 100) * 0.5
    | light => complexity
    end
  else complexity.

(** The value of [complexity] when the loop is over. *)
Definition complexitySum (pos : Vector2D) : float :=
  fold_left (complexityStep pos) resources 0.5.

Definition calculateSpatialComplexity (pos : Vector2D) : float :=
  Math_max 0.1 (Math_min 1.0 (complexitySum pos)).

(** One round of the [resources.forEach] of [calculateEnergy]. *)
Definition energyStep (pos : Vector2D) (energy : float)
    (resource : ResourcePoint) : float :=
  match rtype resource with
  | light =>
      let distance := distanceBetween pos (rposition resource) in
      if distance <? MAX_ENERGY_DISTANCE then
        energy + intensity resource
                 * Math_pow2 (1 - distance / MAX_ENERGY_DISTANCE)
      else energy
  | _ => energy
  end.

Definition energySum (pos : Vector2D) : float :=
  fold_left (energyStep pos) resources 0.2.

Definition calculateEnergy (pos : Vector2D) : float :=
  Math_max 0.1 (Math_min 1.0 (energySum pos)).

Definition calculateSpatialGradient (pos : Vector2D) : Vector2D :=
  let delta := 5 in
  let s := calculateSpatialComplexity pos in
  let sx := calculateSpatialComplexity (mkVector2D (x pos + delta) (y pos)) in
  let sy := calculateSpatialComplexity (mkVector2D (x pos) (y pos + delta)) in
  mkVector2D ((sx - s) / delta) ((sy - s) / delta).

End Fields.


(** ** The growth engine: one tick of [setNodes(prevNodes => ...)] *)

(** What the callback has built so far: the copy [newNodes] of the
    previous nodes, the array [nodesToAdd], and the state of
    [Math.random]. *)
Record TickState := mkTickState {
  newNodes : list PlantNode;
  nodesToAdd : list PlantNode;
  entropy : Rng
}.

Section Engine.

Context {M : MathLib}.
Variable resources : list ResourcePoint.
Variable prevNodes : list PlantNode.

(** [dH = -ALPHA * (dD_dH + gradS * COMPLEXITY_GRADIENT_SCALE)] *)
Definition coherenceChange (node : PlantNode) : float :=
  let gradient := calculateSpatialGradient resources (position node) in
  let dD_dH := distortion node / (coherence node + EPSILON) in
  let gradS := Math_sqrt (x gradient * x gradient + y gradient * y gradient) in
  - ALPHA * (dD_dH + gradS * COMPLEXITY_GRADIENT_SCALE).

(** [dD = BETA * Math.log1p(Math.abs(dH) * E)] *)
Definition distortionChange (node : PlantNode) : float :=
  let E := calculateEnergy resources (position node) in
  BETA * Math_log1p (Math_abs (coherenceChange node) * E).

(** [dT = BETA * Math.tanh(Math.abs(dH) * E) * Math.sign(node.coherence)] *)
Definition temporalChange (node : PlantNode) : float :=
  let E := calculateEnergy resources (position node) in
  BETA * Math_tanh (Math_abs (coherenceChange node) * E)
  * Math_sign (coherence node).

(** The object first stored in [newNodes[index]]. *)
Definition baseUpdate (node : PlantNode) : PlantNode :=
  mkPlantNode (id node) (position node)
    (calculateEnergy resources (position node))
    (Math_max 0 (coherence node + coherenceChange node))
    (distortion node + distortionChange node)
    (temporalComplexity node + temporalChange node)
    (calculateSpatialComplexity resources (position node))
    (parent node)
    (age node + 1)%Z.

(** [{ ...n, distortion: d }] *)
Definition withDistortion (n : PlantNode) (d : float) : PlantNode :=
  mkPlantNode (id n) (position n) (energy n) (coherence n) d
    (temporalComplexity n) (spatialComplexity n) (parent n) (age n).

(** [prevNodes.filter(n => distance(n.position, pos) < 20)] *)
Definition nearbyNodes (pos : Vector2D) : list PlantNode :=
  List.filter (fun n => distanceBetween (position n) pos <? 20) prevNodes.

(** The guard of the branching [if]. *)
Definition branchCondition (node : PlantNode) : bool :=
  (D_CRITICAL <? distortion node)
  && (0.3 <? calculateEnergy resources (position node))
  && (5 <? age node)%Z
  && (length (nearbyNodes (position node)) <? 3)%nat.

(** The node pushed by the branching block, given the draw that fixes its
    direction and the id it receives. *)
Definition branchNode (node : PlantNode) (draw : float) (newId : nat)
    : PlantNode :=
  let pos := position node in
  let E := calculateEnergy resources pos in
  let branchDirection := draw * 2 * Math_PI in
  let branchDistance := GROWTH_RATE * (0.5 + 0.5 * E) in
  mkPlantNode newId
    (mkVector2D (x pos + Math_cos branchDirection * branchDistance)
                (y pos + Math_sin branchDirection * branchDistance))
    E 1.0 0.0 (temporalComplexity node)
    (calculateSpatialComplexity resources pos)
    (Some (id node)) 0%Z.

(** [newNodes[index] = value]; [index] is always within the array here. *)
Definition setNewNode (index : nat) (value : PlantNode) (st : TickState)
    : TickState :=
  mkTickState (<[index := value]> (newNodes st)) (nodesToAdd st) (entropy st).

(** [nodesToAdd.push(value)] *)
Definition pushNode (value : PlantNode) (st : TickState) : TickState :=
  mkTickState (newNodes st) (nodesToAdd st ++ [value]) (entropy st).

(** The branching block.  It reads [newNodes[index]] back; the base
    update was stored there just before, so the lookup finds it. *)
Definition branchBlock (node : PlantNode) (index : nat) (st : TickState)
    : TickState :=
  if branchCondition node then
    let (draw, g) := Math_random (entropy st) in
    let newNode :=
      branchNode node draw (length prevNodes + length (nodesToAdd st)) in
    let st1 := mkTickState (newNodes st) (nodesToAdd st ++ [newNode]) g in
    match newNodes st1 !! index with
    | Some current => setNewNode index (withDistortion current 0.5) st1
    | None => st1
    end
  else st.

(** [prevNodes.filter(n => n.age < 15).length] *)
Definition activeNodeCount : nat :=
  length (List.filter (fun n => (age n <? 15)%Z) prevNodes).

(** The conjuncts of the growth guard that come before the draw: with
    [&&], [Math.random()] is called only when they all hold. *)
Definition growthEligible (node : PlantNode) : bool :=
  (0.2 <? coherence node) && (age node <? 15)%Z && (activeNodeCount <? 50)%nat.

(** One round of the [resources.forEach] that sums the light bias. *)
Definition lightBiasStep (pos : Vector2D) (bias : float * float)
    (resource : ResourcePoint) : float * float :=
  match rtype resource with
  | light =>
      let dx := x (rposition resource) - x pos in
      let dy := y (rposition resource) - y pos in
      let distance := Math_sqrt (dx * dx + dy * dy) in
      if distance <? MAX_ENERGY_DISTANCE then
        let weight :=
          intensity resource * (1 - distance / MAX_ENERGY_DISTANCE) in
        (fst bias + dx / distance * weight, snd bias + dy / distance * weight)
      else bias
  | _ => bias
  end.

(** [(lightBiasX, lightBiasY)] when the loop is over. *)
Definition lightBias (pos : Vector2D) : float * float :=
  fold_left (lightBiasStep pos) resources (0, 0).

(** [(dirX, dirY)], the direction before it is normalised. *)
Definition growthDirection (pos : Vector2D) : float * float :=
  let gradient := calculateSpatialGradient resources pos in
  let S := calculateSpatialComplexity resources pos in
  let moveX := - x gradient * 10 - 0.2 in
  let moveY := - y gradient * 10 - 0.6 in
  let pureTimeFactor := Math_max 0 (1 - S * 2) in
  (moveX + fst (lightBias pos) * 2 * pureTimeFactor,
   moveY + snd (lightBias pos) * 2 * pureTimeFactor).

(** The node pushed by the growth block, given the id it receives. *)
Definition growthNode (node : PlantNode) (newId : nat) : PlantNode :=
  let pos := position node in
  let E := calculateEnergy resources pos in
  let (dirX, dirY) := growthDirection pos in
  let magnitude := Math_sqrt (dirX * dirX + dirY * dirY) in
  let normDirX := if 0 <? magnitude then dirX / magnitude else 0 in
  let normDirY := if 0 <? magnitude then dirY / magnitude else -1 in
  let growth := GROWTH_RATE * (0.5 + 0.5 * E) in
  mkPlantNode newId
    (mkVector2D (x pos + normDirX * growth) (y pos + normDirY * growth))
    E (coherence node) (distortion node)
    (temporalComplexity node + temporalChange node)
    (calculateSpatialComplexity resources pos)
    (Some (id node)) 0%Z.

(** The growth block. *)
Definition growthBlock (node : PlantNode) (st : TickState) : TickState :=
  if growthEligible node then
    let (draw, g) := Math_random (entropy st) in
    let st1 := mkTickState (newNodes st) (nodesToAdd st) g in
    if 0.5 <? draw then
      pushNode
        (growthNode node (length prevNodes + length (nodesToAdd st1))) st1
    else st1
  else st.

(** The body of [prevNodes.forEach((node, index) => ...)]. *)
Definition processNode (st : TickState) (node : PlantNode) (index : nat)
    : TickState :=
  if (20 <? age node)%Z then st
  else
    growthBlock node
      (branchBlock node index (setNewNode index (baseUpdate node) st)).

(** [forEach] over the nodes from position [index] on. *)
Fixpoint forEachFrom (nodes : list PlantNode) (index : nat) (st : TickState)
    : TickState :=
  match nodes with
  | [] => st
  | node :: rest => forEachFrom rest (S index) (processNode st node index)
  end.

End Engine.

(** The updater passed to [setNodes]: it returns
    [[...newNodes, ...nodesToAdd]]; the state of [Math.random] is returned
    with it. *)
Definition updateNodes {M : MathLib} (resources : list ResourcePoint)
    (g : Rng) (prevNodes : list PlantNode) : list PlantNode * Rng :=
  let st := forEachFrom resources prevNodes prevNodes 0
              (mkTickState prevNodes [] g) in
  (newNodes st ++ nodesToAdd st, entropy st).

(** ** The state of the hook and its timer *)

Record State := mkState {
  nodes : list PlantNode;
  resources : list ResourcePoint;
  time : nat;
  paused : bool;
  random : Rng
}.

(** The seed node of the initialising effect. *)
Definition seed (width height : float) : PlantNode :=
  mkPlantNode 0 (mkVector2D (width / 2) (height - 50))
    0.5 1.0 0.0 0.0 0.5 None 0%Z.

Definition initialState (width height : float)
    (newResources : list ResourcePoint) (g : Rng) : State :=
  mkState [seed width height] newResources 0 false g.

(** The timer callback: [setTime(t => t + 1)] and [setNodes(...)]. *)
Definition tick {M : MathLib} (s : State) : State :=
  let (newNodes, g) := updateNodes (resources s) (random s) (nodes s) in
  mkState newNodes (resources s) (S (time s)) (paused s) g.

(** The effect that arms the timer returns at once while paused. *)
Definition timerEffect {M : MathLib} (s : State) : State :=
  if paused s then s else tick s.

Definition setPaused (b : bool) (s : State) : State :=
  mkState (nodes s) (resources s) (time s) b (random s).

(** [k] ticks in a row. *)
Fixpoint ticks {M : MathLib} (k : nat) (s : State) : State :=
  match k with
  | O => s
  | S k' => ticks k' (tick s)
  end.

(** The state of the first render, before any effect has run: every
    [useState] holds its initial value. *)
Definition mountState (g : Rng) : State := mkState [] [] 0 false g.

(** The states the hook can be in: the one of the first render, the
    initialised one, and whatever the timer and the pause button make of
    them.  The resource list is set once by the initialising effect and
    only read afterwards; it is left arbitrary here. *)
Inductive reachable {M : MathLib} (width height : float) : State -> Prop :=
| reachable_mount : forall g, reachable width height (mountState g)
| reachable_init : forall newResources g,
    reachable width height (initialState width height newResources g)
| reachable_timer : forall s,
    reachable width height s -> reachable width height (timerEffect s)
| reachable_paused : forall s b,
    reachable width height s -> reachable width height (setPaused b s).

(** ** The resources of the initialising effect *)

(** The array literal [newResources] starts from. *)
Definition fixedResources (width height : float) : list ResourcePoint :=
  [ mkResourcePoint (mkVector2D (width * 0.875) (height * 0.2)) 1.0 light;
    mkResourcePoint (mkVector2D (width * 0.5) (height * 0.5)) 0.7 support;
    mkResourcePoint (mkVector2D (width * 0.625) (height * 0.5)) 0.7 support;
    mkResourcePoint (mkVector2D (width * 0.75) (height * 0.5)) 0.7 support;
    mkResourcePoint (mkVector2D (width * 0.5) (height * 0.333)) 0.7 support;
    mkResourcePoint (mkVector2D (width * 0.625) (height * 0.333)) 0.7 support;
    mkResourcePoint (mkVector2D (width * 0.75) (height * 0.333)) 0.7 support;
    mkResourcePoint (mkVector2D (width * 0.3125) (height * 0.75)) 0.9 obstacle;
    mkResourcePoint (mkVector2D (width * 0.4375) (height * 0.6667)) 0.8
      obstacle ].

(** One round of the loop that adds the vertical trellis supports. *)
Definition trellisRow (width row : float) : list ResourcePoint :=
  [ mkResourcePoint (mkVector2D (width * 0.5) row) 0.6 support;
    mkResourcePoint (mkVector2D (width * 0.625) row) 0.6 support;
    mkResourcePoint (mkVector2D (width * 0.75) row) 0.6 support ].

(** [for (let y = row; y <= height * 0.8333; y += height * 0.0333)]: the
    rounds the loop makes from [row] on, [fuel] of them at most. *)
Fixpoint trellis (fuel : nat) (width height row : float)
    : list ResourcePoint :=
  match fuel with
  | O => []
  | S fuel' =>
      if row <=? height * 0.8333 then
        trellisRow width row
        ++ trellis fuel' width height (row + height * 0.0333)
      else []
  end.

(** [newResources] as the initialising effect stores it, when the loop
    ends within [fuel] rounds. *)
Definition newResources (fuel : nat) (width height : float)
    : list ResourcePoint :=
  fixedResources width height ++ trellis fuel width height (height * 0.333).

(** ** The paths effect *)

Record Path := mkPath { pathId : nat; d : string }.

Section Paths.

(** The conversion of a number to a string in a template literal. *)
Variable Number_toString : float -> string.

(** [`${v.x},${v.y}`] *)
Definition point (v : Vector2D) : string :=
  (Number_toString (x v) ++ "," ++ Number_toString (y v))%string.

(** [nodes.find(n => n.id === wanted)] *)
Definition findNode (nodes : list PlantNode) (wanted : nat)
    : option PlantNode :=
  List.find (fun n => (id n =? wanted)%nat) nodes.

(** [nodePaths.findIndex(p => p.id === wanted)], [None] for -1. *)
Fixpoint findIndex (nodePaths : list Path) (wanted : nat) : option nat :=
  match nodePaths with
  | [] => None
  | p :: rest =>
      if (pathId p =? wanted)%nat then Some O
      else option_map S (findIndex rest wanted)
  end.

(** The body of [nodes.forEach(node => ...)] in the paths effect.
    [pathIndex] comes from [findIndex], so [nodePaths[pathIndex]] is
    there. *)
Definition pathStep (nodes : list PlantNode) (nodePaths : list Path)
    (node : PlantNode) : list Path :=
  match parent node with
  | None => nodePaths
  | Some wanted =>
      match findNode nodes wanted with
      | None => nodePaths
      | Some parentNode =>
          match findIndex nodePaths (id parentNode) with
          | None =>
              nodePaths ++
              [mkPath (id parentNode)
                 ("M" ++ point (position parentNode)
                  ++ " L" ++ point (position node))%string]
          | Some pathIndex =>
              match nodePaths !! pathIndex with
              | Some current =>
                  <[pathIndex :=
                      mkPath (pathId current)
                        (d current ++ " L" ++ point (position node))%string]>
                    nodePaths
              | None => nodePaths
              end
          end
      end
  end.

Definition derivePaths (nodes : list PlantNode) : list Path :=
  fold_left (pathStep nodes) nodes [].

End Paths.

(** ** A math library to evaluate examples with

    Truncated series on floats.  They stand for the engine's own
    implementations only in the examples; every theorem below holds for
    all libraries. *)

Module RefMath.

(** [sum_{k < fuel} term_k] where [term_{k+1} = term_k * ratio k]. *)
Fixpoint series (fuel : nat) (k term acc : float)
    (ratio : float -> float) : float :=
  match fuel with
  | O => acc
  | S fuel' => series fuel' (k + 1) (term * ratio k) (acc + term) ratio
  end.

Fixpoint repeatedly (n : nat) (f : float -> float) (v : float) : float :=
  match n with
  | O => v
  | S n' => repeatedly n' f (f v)
  end.

Definition exp (v : float) : float :=
  let small := v / 1024 in
  repeatedly 10 (fun e => e * e)
    (series 20 0 1 0 (fun k => small / (k + 1))).

Definition tanh (v : float) : float :=
  if is_nan v then nan
  else if 20 <? v then 1
  else if v <? -20 then -1
  else let e2 := exp (2 * v) in (e2 - 1) / (e2 + 1).

Definition log1p (v : float) : float :=
  if is_nan v || (v <? -1) then nan
  else if v =? infinity then infinity
  else
    let root := repeatedly 10 sqrt (1 + v) in
    let z := (root - 1) / (root + 1) in
    1024 * (2 * series 12 0 z 0
                  (fun k => z * z * (2 * k + 1) / (2 * k + 3))).

Definition sin (v : float) : float :=
  series 40 0 v 0 (fun k => - (v * v) / ((2 * k + 2) * (2 * k + 3))).

Definition cos (v : float) : float :=
  series 40 0 1 0 (fun k => - (v * v) / ((2 * k + 1) * (2 * k + 2))).

#[export] Instance lib : MathLib := {
  Math_tanh := tanh;
  Math_log1p := log1p;
  Math_cos := cos;
  Math_sin := sin
}.

(** The digits after the point of [num / den], for [den] a power of two. *)
Fixpoint fraction (fuel : nat) (num den : Z) : string :=
  match fuel with
  | O => ""
  | S fuel' =>
      if (num =? 0)%Z then ""
      else (NilZero.string_of_uint (N.to_uint (Z.to_N (num * 10 / den)))
            ++ fraction fuel' (num * 10 mod den)%Z den)%string
  end.

(** A number as a string: its exact decimal expansion.  It is the string
    JavaScript prints for integers below 1e21 and for short binary
    fractions such as 547.5. *)
Definition Number_toString (v : float) : string :=
  match Prim2SF v with
  | S754_nan => "NaN"
  | S754_infinity s => if s then "-Infinity" else "Infinity"
  | S754_zero _ => "0"
  | S754_finite s m e =>
      let sign := if s then "-" else "" in
      if (0 <=? e)%Z then
        sign ++ NilZero.string_of_uint (N.to_uint (Z.to_N (Zpos m * 2 ^ e)))
      else
        let den := (2 ^ (- e))%Z in
        let whole := (Zpos m / den)%Z in
        let rest := (Zpos m mod den)%Z in
        sign ++ NilZero.string_of_uint (N.to_uint (Z.to_N whole))
        ++ (if (rest =? 0)%Z then ""
            else "." ++ fraction (Z.to_nat (- e)) rest den)
  end%string.

End RefMath.


(** ** What one round of the loop leaves behind

    Closed forms of the effect of [processNode], used to state the
    lemmas on the loop. *)

Section Described.

Context {M : MathLib}.
Variable resources : list ResourcePoint.
Variable prevNodes : list PlantNode.

(** [newNodes[index]] after the round of a node that is not skipped. *)
Definition updatedNode (node : PlantNode) : PlantNode :=
  if branchCondition resources prevNodes node
  then withDistortion (baseUpdate resources node) 0.5
  else baseUpdate resources node.

(** [newNodes[index]] after the round of any node. *)
Definition settledNode (node : PlantNode) : PlantNode :=
  if (20 <? age node)%Z then node else updatedNode node.

(** The node the branching block pushes when it fires in state [st]. *)
Definition branchChild (node : PlantNode) (st : TickState) : PlantNode :=
  branchNode resources node (fst (Math_random (entropy st)))
    (length prevNodes + length (nodesToAdd st)).

(** The node the growth block pushes when it fires in state [st]. *)
Definition growthChild (node : PlantNode) (st : TickState) : PlantNode :=
  growthNode resources node (length prevNodes + length (nodesToAdd st)).

(** The whole guard of the growth block, the draw included. *)
Definition growthFires (node : PlantNode) (st : TickState) : bool :=
  growthEligible prevNodes node && (0.5 <? fst (Math_random (entropy st))).

(** The nodes one round of the loop pushes. *)
Definition childrenOf (node : PlantNode) (index : nat) (st : TickState)
    : list PlantNode :=
  if (20 <? age node)%Z then []
  else
    let st1 := setNewNode index (baseUpdate resources node) st in
    let st2 := branchBlock resources prevNodes node index st1 in
    (if branchCondition resources prevNodes node
     then [branchChild node st1] else [])
    ++ (if growthFires node st2 then [growthChild node st2] else []).

End Described.

(** What holds of every pushed node. *)
Definition childOf (node child : PlantNode) : Prop :=
  parent child = Some (id node) /\ age child = 0%Z /\ (age node <= 20)%Z.

(** Every node sits at the position its id names. *)
Definition wellNumbered (l : list PlantNode) : Prop :=
  forall i n, l !! i = Some n -> id n = i.

(** [Math.max(0.1, Math.min(1.0, v))], the last line of both field
    functions. *)
Definition clamp (v : float) : float := Math_max 0.1 (Math_min 1.0 v).

(** ** What the paths effect computes, in closed form *)

Section PathsDescribed.

Variable Number_toString : float -> string.

(** [n.parent === wanted] *)
Definition isChildOf (wanted : nat) (n : PlantNode) : bool :=
  match parent n with
  | Some p => (p =? wanted)%nat
  | None => false
  end.

(** The children of [wanted] among [nodes], in the order of the list,
    which is the order of creation. *)
Definition childrenAmong (nodes : list PlantNode) (wanted : nat)
    : list PlantNode :=
  List.filter (isChildOf wanted) nodes.

(** [start] followed by one [" Lx,y"] per child, in order. *)
Fixpoint polyline (start : string) (children : list PlantNode) : string :=
  match children with
  | [] => start
  | c :: rest =>
      polyline (start ++ " L" ++ point Number_toString (position c))%string
        rest
  end.

(** The [d] of the first entry whose id is [wanted]. *)
Definition pathOf (nodePaths : list Path) (wanted : nat) : option string :=
  option_map d (List.find (fun p => (pathId p =? wanted)%nat) nodePaths).

(** The path of parent [wanted] once the nodes [processed] have been
    visited: none if no node has that id or none of them is its child,
    else ["Mpx,py"] and a line to each child. *)
Definition expectedPath (nodes processed : list PlantNode) (wanted : nat)
    : option string :=
  match findNode nodes wanted, childrenAmong processed wanted with
  | Some parentNode, first :: others =>
      Some (polyline
              ("M" ++ point Number_toString (position parentNode)
               ++ " L" ++ point Number_toString (position first))%string
              others)
  | _, _ => None
  end.

(** The invariant of the loop of the paths effect. *)
Definition pathsDescribe (nodes processed : list PlantNode)
    (nodePaths : list Path) : Prop :=
  (forall q, pathOf nodePaths q = expectedPath nodes processed q)
  /\ NoDup (map pathId nodePaths).

End PathsDescribed.

(** ** The claims of the specification that differ from the code, in the
    specification's words *)

Section Specified.

Context {M : MathLib}.
Variable resources : list ResourcePoint.
Variable prevNodes : list PlantNode.

(** The other nodes within 20 units of [pos]: the previous nodes but
    the one at [index]. *)
Definition nearbyOthers (index : nat) (pos : Vector2D) : list PlantNode :=
  List.filter (fun n => distanceBetween (position n) pos <? 20)
    (delete index prevNodes).

(** The branching condition as the specification words it: the distortion
    after the base update exceeds the threshold, the energy exceeds 0.3,
    the age exceeds 5, and fewer than 3 of the other nodes are within 20
    units. *)
Definition specBranchCondition (node : PlantNode) (index : nat) : bool :=
  (D_CRITICAL <? distortion (baseUpdate resources node))
  && (0.3 <? calculateEnergy resources (position node))
  && (5 <? age node)%Z
  && (length (nearbyOthers index (position node)) <? 3)%nat.

(** The temporal complexity of a node that grew, as the specification
    words it: the increment is applied by the base update and once more
    for the growth event. *)
Definition specTemporalAfterGrowth (node : PlantNode) : float :=
  temporalComplexity node + temporalChange resources node
  + temporalChange resources node.

(** The nodes of the previous list whose round pushes a branch. *)
Definition branchFires (node : PlantNode) : bool :=
  negb (20 <? age node)%Z && branchCondition resources prevNodes node.

End Specified.

(** The segments of the entry of a parent as the specification words
    them: one from the parent's position to the position of each child. *)
Definition specSegments (parentNode : PlantNode) (children : list PlantNode)
    : list (Vector2D * Vector2D) :=
  map (fun c => (position parentNode, position c)) children.

(** A source none of whose draws exceeds 0.5. *)
Definition lowDraws (g : Rng) : Prop := forall k, (0.5 <? draws g k) = false.

(** The resources are a trellis: nothing but supports. *)
Definition onlySupports (rs : list ResourcePoint) : Prop :=
  Forall (fun r => rtype r = support) rs.

(** ** Sample inputs *)

Module Sample.

(** An 800 by 600 canvas: the light is at (700, 120). *)
Definition resources : list ResourcePoint := fixedResources 800 600.

Definition atLight : Vector2D := mkVector2D 700 120.
Definition belowLight : Vector2D := mkVector2D 700 150.

(** The hook just initialised, every draw 0.9. *)
Definition fresh : State := initialState 800 600 resources (constantRng 0.9).

(** The hook just initialised, every draw 0.1: the seed never grows. *)
Definition dormant : State :=
  initialState 800 600 resources (constantRng 0.1).

(** The seed of [dormant] after 21 ticks. *)
Definition oldSeed : PlantNode :=
  mkPlantNode 0 (mkVector2D 400 550) 0.2 1 0 0 0.5 None 21.

(** The hook initialised for a canvas of width 0 and height 62.5, every
    draw 0.9: the seed is created on the light. *)
Definition narrow : State :=
  initialState 0 62.5 (newResources 100 0 62.5) (constantRng 0.9).

(** A distorted node with two inert nodes at the same place; no draw
    exceeds 0.5. *)
Definition strained : PlantNode :=
  mkPlantNode 0 atLight 1 1 3 0 0.5 None 6.
Definition bystander (i : nat) : PlantNode :=
  mkPlantNode i atLight 1 1 0 0 0.5 (Some 0%nat) 30.
Definition crowded : State :=
  mkState [strained; bystander 1; bystander 2] resources 0 false
    (constantRng 0.1).

(** A lone node whose distortion crosses the threshold during the
    update. *)
Definition rising : PlantNode :=
  mkPlantNode 0 atLight 1 0.01 2.49 0 0.5 None 6.
Definition alone : State :=
  mkState [rising] resources 0 false (constantRng 0.1).

(** A lone node ready to branch. *)
Definition ripe : State :=
  mkState [strained] resources 0 false (constantRng 0.1).

(** A young node 30 units below the light, every draw 0.9. *)
Definition shoot : PlantNode :=
  mkPlantNode 0 belowLight 1 1 1 1 0.5 None 0.
Definition growing : State :=
  mkState [shoot] resources 0 false (constantRng 0.9).

(** A young node exactly at the light, every draw 0.9. *)
Definition onLight : PlantNode :=
  mkPlantNode 0 atLight 1 1 1 1 0.5 None 0.
Definition coincident : State :=
  mkState [onLight] resources 0 false (constantRng 0.9).

(** A light and an obstacle whose intensity is not a number. *)
Definition brokenLight : ResourcePoint :=
  mkResourcePoint atLight nan light.
Definition brokenObstacle : ResourcePoint :=
  mkResourcePoint atLight nan obstacle.

(** A parent and its two children. *)
Definition family : list PlantNode :=
  [ mkPlantNode 0 (mkVector2D 400 550) 0.5 1 0 0 0.5 None 2;
    mkPlantNode 1 (mkVector2D 399 547.5) 0.5 1 0 0 0.5 (Some 0%nat) 1;
    mkPlantNode 2 (mkVector2D 401 547.5) 0.5 1 0 0 0.5 (Some 0%nat) 0 ].

End Sample.

(** ** Further descriptions, for the properties beyond the claims *)

(** [resource.type === 'light'] and [resource.type === 'obstacle'] *)
Definition isLight (r : ResourcePoint) : bool :=
  match rtype r with light => true | _ => false end.

Definition isObstacle (r : ResourcePoint) : bool :=
  match rtype r with obstacle => true | _ => false end.

(** No light of [rs] is within the sensing distance of [pos]. *)
Definition darkAt (rs : list ResourcePoint) (pos : Vector2D) : Prop :=
  Forall (fun r => rtype r = light ->
            (distanceBetween pos (rposition r) <? MAX_ENERGY_DISTANCE)
            = false) rs.

(** No support and no obstacle of [rs] is within 100 units of [pos]. *)
Definition clearAt (rs : list ResourcePoint) (pos : Vector2D) : Prop :=
  Forall (fun r => rtype r <> light ->
            (distanceBetween pos (rposition r) <? 100) = false) rs.

(** Both coordinates are finite numbers ([Number.isFinite]). *)
Definition finiteVector (v : Vector2D) : bool :=
  is_finite (x v) && is_finite (y v).

Section Pushed.

Context {M : MathLib}.
Variable rs : list ResourcePoint.
Variable prevNodes : list PlantNode.

(** [child] is a node the round of [node] can push: the branch node of a
    node that met the branching guard, or the growth node of a node that
    met the growth guard up to the draw. *)
Definition pushedBy (node child : PlantNode) : Prop :=
  (age node <= 20)%Z
  /\ ((branchCondition rs prevNodes node = true
       /\ exists draw newId, child = branchNode rs node draw newId)
      \/ (growthEligible prevNodes node = true
          /\ exists newId, child = growthNode rs node newId)).

(** The nodes whose round calls [Math.random] in the growth guard. *)
Definition drawsForGrowth (node : PlantNode) : bool :=
  negb (20 <? age node)%Z && growthEligible prevNodes node.

End Pushed.

(** The node the initialising effect creates, as far as a tick keeps it. *)
Definition seedLike (width height : float) (n : PlantNode) : Prop :=
  id n = 0%nat /\ parent n = None
  /\ position n = mkVector2D (width / 2) (height - 50).

(** The first node is the seed and every other node names an earlier
    position of the list as its parent. *)
Definition forest (width height : float) (l : list PlantNode) : Prop :=
  forall i n, l !! i = Some n ->
    match i with
    | O => seedLike width height n
    | S _ => exists p, parent n = Some p /\ (p < i)%nat
    end.

Definition agesBounded (l : list PlantNode) : Prop :=
  Forall (fun n => (0 <= age n <= 21)%Z) l.

Definition coherencesNotNegative (l : list PlantNode) : Prop :=
  Forall (fun n => (coherence n <? 0) = false) l.

(** Every node updated at least once carries the energy and the spatial
    complexity of its own position. *)
Definition fieldsCurrent (rs : list ResourcePoint) (l : list PlantNode)
    : Prop :=
  Forall (fun n => (0 < age n)%Z ->
            energy n = calculateEnergy rs (position n)
            /\ spatialComplexity n
               = calculateSpatialComplexity rs (position n)) l.

(** Classes of IEEE values, read off their [spec_float]: a zero or a
    finite number; a number between 0 and 1; a number that is neither
    negative nor minus infinity. *)
Definition finiteSF (v : spec_float) : Prop :=
  match v with S754_zero _ | S754_finite _ _ _ => True | _ => False end.

Definition unitSF (v : spec_float) : Prop :=
  match v with
  | S754_zero _ => True
  | S754_finite false m e => (e <= 0)%Z /\ (Z.pos m <= 2 ^ (- e))%Z
  | _ => False
  end.

Definition notNegativeSF (v : spec_float) : Prop :=
  match v with
  | S754_infinity true | S754_finite true _ _ => False
  | _ => True
  end.

(** The number 1. *)
Definition oneSF : spec_float := S754_finite false 4503599627370496 (-52).

(** Every intensity is a finite number. *)
Definition finiteIntensities (rs : list ResourcePoint) : Prop :=
  Forall (fun r => is_finite (intensity r) = true) rs.

(** [a.x === b.x && a.y === b.y] *)
Definition sameVector (a b : Vector2D) : bool :=
  (x a =? x b) && (y a =? y b).

(** ** The path data as the renderer reads it

    The [d] of a path is a list of commands: [M] moves the current point,
    [L] draws a segment from the current point to its argument, which
    becomes the current point. *)
Inductive PathCommand :=
| MoveTo (p : Vector2D)
| LineTo (p : Vector2D).

(** The segments a list of points is joined by, starting from [from]. *)
Fixpoint strokes (from : Vector2D) (points : list Vector2D)
    : list (Vector2D * Vector2D) :=
  match points with
  | [] => []
  | p :: rest => (from, p) :: strokes p rest
  end.

(** The segments the commands draw when the current point is [current]. *)
Fixpoint segmentsFrom (current : Vector2D) (commands : list PathCommand)
    : list (Vector2D * Vector2D) :=
  match commands with
  | [] => []
  | MoveTo p :: rest => segmentsFrom p rest
  | LineTo p :: rest => (current, p) :: segmentsFrom p rest
  end.

(** The segments of a path; path data starts with a move. *)
Definition segments (commands : list PathCommand)
    : list (Vector2D * Vector2D) :=
  match commands with
  | MoveTo p :: rest => segmentsFrom p rest
  | _ => []
  end.

(** The commands of the entry of a parent: a move to the parent and a
    line to each child. *)
Definition pathCommands (parentNode : PlantNode) (children : list PlantNode)
    : list PathCommand :=
  MoveTo (position parentNode)
  :: map (fun c => LineTo (position c)) children.

Section PathData.

Variable Number_toString : float -> string.

Definition commandText (c : PathCommand) : string :=
  match c with
  | MoveTo p => "M" ++ point Number_toString p
  | LineTo p => "L" ++ point Number_toString p
  end%string.

(** The commands written out, a space between two of them. *)
Definition pathData (commands : list PathCommand) : string :=
  match commands with
  | [] => ""
  | c :: rest =>
      fold_left (fun text c' => text ++ " " ++ commandText c')%string rest
        (commandText c)
  end.

End PathData.

(** The state of the loop of a tick when it reaches the growth block in
    the round of [node], the node at [index]: the rounds of the nodes
    before it are over, and so are the base update and the branching
    block of its own round. *)
Definition atGrowthBlock {M : MathLib} (s : State) (index : nat)
    (node : PlantNode) : TickState :=
  branchBlock (resources s) (nodes s) node index
    (setNewNode index (baseUpdate (resources s) node)
       (forEachFrom (resources s) (nodes s) (take index (nodes s)) 0
          (mkTickState (nodes s) [] (random s)))).

(** More sample inputs. *)
Module Scenario.

(** The hook three and six ticks after [Sample.fresh]. *)
Definition young : State := ticks (M := RefMath.lib) 3 Sample.fresh.
Definition crowd : State := ticks (M := RefMath.lib) 6 Sample.fresh.

(** The second node of [young]. *)
Definition firstChild : PlantNode :=
  Eval vm_compute in nth 1 (nodes young) (seed 800 600).

(** The seed of [Sample.fresh] after its first tick. *)
Definition tended : PlantNode :=
  Eval vm_compute in
    nth 0 (nodes (tick (M := RefMath.lib) Sample.fresh)) (seed 800 600).

(** Nothing but a node past the threshold. *)
Definition settled : State :=
  mkState [Sample.oldSeed] Sample.resources 21 false (constantRng 0.9).

(** The hook as [usePlantCSpace(800, 600)] initialises it, with its 57
    resources, every draw 0.9; and three ticks later. *)
Definition hook : State :=
  initialState 800 600 (newResources 100 800 600) (constantRng 0.9).
Definition sapling : State := ticks (M := RefMath.lib) 3 hook.

(** Where the children of the seed of [sapling] are: all at one place. *)
Definition tip : Vector2D :=
  Eval vm_compute in position (nth 1 (nodes sapling) (seed 800 600)).

(** A fresh node 30 units below the light, where the spatial complexity
    is flat, every draw 0.9; and the node it gets in its first tick. *)
Definition calmNode : PlantNode :=
  mkPlantNode 0 Sample.belowLight 0.5 1 0 0 0.5 None 0.
Definition calm : State :=
  mkState [calmNode] Sample.resources 0 false (constantRng 0.9).
Definition calmSprout : PlantNode :=
  Eval vm_compute in
    nth 1 (nodes (tick (M := RefMath.lib) calm)) calmNode.

End Scenario.


(** * Facts on the order of floats *)

Lemma SFcompare_antisym (a b : spec_float) :
  SFcompare b a = option_map CompOpp (SFcompare a b).
Proof.
  destruct a as [sa|sa| |sa ma ea], b as [sb|sb| |sb mb eb]; simpl;
    try reflexivity;
    try (destruct sa; reflexivity); try (destruct sb; reflexivity);
    try (destruct sa, sb; reflexivity).
  destruct sa, sb; simpl; try reflexivity;
    rewrite (Z.compare_antisym ea eb);
    destruct (ea ?= eb)%Z; simpl; try reflexivity;
    rewrite (Pos.compare_cont_antisym ma mb Eq); simpl;
    try rewrite CompOpp_involutive; reflexivity.
Qed.

Lemma SFcompare_refl (a : spec_float) :
  a <> S754_nan -> SFcompare a a = Some Eq.
Proof.
  destruct a as [s|s| |s m e]; simpl; intros H; try congruence.
  - destruct s; reflexivity.
  - destruct s; rewrite Z.compare_refl, Pos.compare_cont_refl; reflexivity.
Qed.

Lemma is_nan_spec (v : float) : is_nan v = false <-> Prim2SF v <> S754_nan.
Proof.
  unfold is_nan. rewrite FloatAxioms.eqb_spec. unfold SFeqb. split.
  - intros H E. rewrite E in H. discriminate.
  - intros H. rewrite SFcompare_refl by assumption. reflexivity.
Qed.

Lemma ltb_asym (a b : float) : (a <? b) = true -> (b <? a) = false.
Proof.
  rewrite !FloatAxioms.ltb_spec. unfold SFltb.
  rewrite (SFcompare_antisym (Prim2SF a)).
  destruct (SFcompare (Prim2SF a) (Prim2SF b)) as [[]|]; simpl; congruence.
Qed.

Lemma ltb_leb (a b : float) : (a <? b) = true -> (a <=? b) = true.
Proof.
  rewrite FloatAxioms.ltb_spec, FloatAxioms.leb_spec. unfold SFltb, SFleb.
  destruct (SFcompare (Prim2SF a) (Prim2SF b)) as [[]|]; simpl; congruence.
Qed.

Lemma classify_NZero (v : float) : classify v = NZero -> v = (-0)%float.
Proof.
  rewrite FloatAxioms.classify_spec. intros H.
  apply Prim2SF_inj.
  destruct (Prim2SF v) as [s|s| |s m e]; simpl in H.
  - destruct s; [reflexivity | discriminate].
  - destruct s; discriminate.
  - discriminate.
  - destruct s;
      match type of H with (if ?c then _ else _) = _ => destruct c end;
      discriminate.
Qed.

Lemma clamp_bounds v : is_nan v = false ->
  (0.1 <=? clamp v) = true /\ (clamp v <=? 1) = true.
Proof.
  intros Hv. unfold clamp.
  assert (Hm : is_nan (Math_min 1 v) = false /\ (Math_min 1 v <=? 1) = true).
  { unfold Math_min. rewrite Hv. simpl.
    destruct (v <? 1) eqn:E1; [ split; [assumption | now apply ltb_leb] |].
    destruct (1 <? v) eqn:E2; [ split; reflexivity |].
    destruct (classify v) eqn:C; try (split; reflexivity).
    apply classify_NZero in C. subst v. discriminate E1. }
  destruct Hm as [Hn Hle]. unfold Math_max. rewrite Hn. simpl.
  destruct (0.1 <? Math_min 1 v) eqn:E1;
    [ split; [now apply ltb_leb | assumption] |].
  destruct (Math_min 1 v <? 0.1) eqn:E2; split; reflexivity.
Qed.

Lemma max0_not_negative v : (Math_max 0 v <? 0) = false.
Proof.
  unfold Math_max. simpl.
  destruct (is_nan v); [reflexivity|].
  destruct (0 <? v) eqn:E1; [now apply ltb_asym|].
  destruct (v <? 0); reflexivity.
Qed.


(** * Magnitudes of floats

    What the rounding of IEEE arithmetic does to a mantissa, from the
    definitions of [SpecFloat]: enough to see that the terms the field
    functions add up are finite numbers. *)

Section Rounding.

Local Open Scope Z_scope.

Lemma digits2_pos_bounds (p : positive) :
  2 ^ (Z.pos (digits2_pos p) - 1) <= Z.pos p < 2 ^ Z.pos (digits2_pos p).
Proof.
  induction p as [p IH|p IH|]; simpl digits2_pos.
  - rewrite Pos2Z.inj_succ.
    replace (Z.succ (Z.pos (digits2_pos p)) - 1)
      with (Z.succ (Z.pos (digits2_pos p) - 1)) by lia.
    rewrite !Z.pow_succ_r by lia. lia.
  - rewrite Pos2Z.inj_succ.
    replace (Z.succ (Z.pos (digits2_pos p)) - 1)
      with (Z.succ (Z.pos (digits2_pos p) - 1)) by lia.
    rewrite !Z.pow_succ_r by lia. lia.
  - simpl. lia.
Qed.

Lemma Zdigits2_nonneg (m : Z) : 0 <= Zdigits2 m.
Proof. destruct m; simpl; lia. Qed.

Lemma Zdigits2_gt (m : Z) : 0 <= m -> m < 2 ^ Zdigits2 m.
Proof.
  destruct m as [|p|p]; intros H; simpl; [lia| |lia].
  apply digits2_pos_bounds.
Qed.

Lemma Zdigits2_le (m k : Z) : 0 <= m -> 0 <= k -> m < 2 ^ k -> Zdigits2 m <= k.
Proof.
  destruct m as [|p|p]; intros H Hk Hm; simpl; [lia| |lia].
  pose proof (digits2_pos_bounds p) as [L _].
  assert (2 ^ (Z.pos (digits2_pos p) - 1) < 2 ^ k) by lia.
  apply Z.pow_lt_mono_r_iff in H0; lia.
Qed.

Lemma shr_1_m (mrs : shr_record) :
  0 <= shr_m mrs -> shr_m (shr_1 mrs) = shr_m mrs / 2.
Proof.
  destruct mrs as [m r s]. simpl shr_m at 1 3.
  rewrite <- Z.div2_div.
  destruct m as [|[p|p|]|p]; intros H; try reflexivity; lia.
Qed.

Lemma iter_pos_shr_1 (p : positive) : forall mrs,
  0 <= shr_m mrs ->
  shr_m (SpecFloat.iter_pos shr_1 p mrs) = shr_m mrs / 2 ^ Z.pos p.
Proof.
  assert (P : forall q, 0 < 2 ^ Z.pos q)
    by (intros; apply Z.pow_pos_nonneg; lia).
  induction p as [p IH|p IH|]; intros mrs H; simpl SpecFloat.iter_pos.
  - assert (H1 : 0 <= shr_m (shr_1 mrs)).
    { rewrite shr_1_m by assumption. apply Z.div_pos; lia. }
    assert (H2 : 0 <= shr_m (SpecFloat.iter_pos shr_1 p (shr_1 mrs))).
    { rewrite IH by assumption. apply Z.div_pos; [lia|apply P]. }
    rewrite IH, IH, shr_1_m by assumption.
    rewrite !Z.div_div by (pose proof (P p); lia).
    f_equal.
    replace (Z.pos p~1) with (1 + Z.pos p + Z.pos p) by lia.
    rewrite !Z.pow_add_r by lia. change (2 ^ 1) with 2. ring.
  - assert (H2 : 0 <= shr_m (SpecFloat.iter_pos shr_1 p mrs)).
    { rewrite IH by assumption. apply Z.div_pos; [lia|apply P]. }
    rewrite IH, IH by assumption.
    rewrite !Z.div_div by (pose proof (P p); lia).
    f_equal.
    replace (Z.pos p~0) with (Z.pos p + Z.pos p) by lia.
    rewrite Z.pow_add_r by lia. reflexivity.
  - rewrite shr_1_m by assumption. reflexivity.
Qed.

Lemma shr_spec (mrs : shr_record) (e n : Z) :
  0 <= shr_m mrs ->
  shr_m (fst (shr mrs e n)) = shr_m mrs / 2 ^ Z.max 0 n
  /\ snd (shr mrs e n) = e + Z.max 0 n.
Proof.
  intros H. destruct n as [|p|p]; unfold shr; cbv [fst snd].
  - replace (Z.max 0 0) with 0 by lia.
    rewrite Z.pow_0_r, Z.div_1_r. lia.
  - replace (Z.max 0 (Z.pos p)) with (Z.pos p) by lia.
    rewrite iter_pos_shr_1 by assumption. lia.
  - replace (Z.max 0 (Z.neg p)) with 0 by lia.
    rewrite Z.pow_0_r, Z.div_1_r. lia.
Qed.

Lemma shr_fexp_spec (m e : Z) (l : location) :
  0 <= m ->
  shr_m (fst (shr_fexp prec emax m e l))
  = m / 2 ^ Z.max 0 (fexp prec emax (Zdigits2 m + e) - e)
  /\ snd (shr_fexp prec emax m e l)
     = e + Z.max 0 (fexp prec emax (Zdigits2 m + e) - e).
Proof.
  intros H. unfold shr_fexp.
  assert (E : shr_m (shr_record_of_loc m l) = m)
    by (destruct l as [|[]]; reflexivity).
  pose proof (shr_spec (shr_record_of_loc m l) e
                (fexp prec emax (Zdigits2 m + e) - e)) as S.
  rewrite E in S. apply S. assumption.
Qed.

Lemma round_nearest_even_bounds (m : Z) (l : location) :
  m <= round_nearest_even m l <= m + 1.
Proof.
  destruct l as [|[]]; simpl; try lia.
  destruct (Z.even m); lia.
Qed.

(** What [binary_round_aux] returns for a mantissa that is not negative. *)
Lemma binary_round_aux_spec (s : bool) (m e : Z) (l : location) :
  0 <= m ->
  exists m2 e2 m3,
    let e1 := e + Z.max 0 (fexp prec emax (Zdigits2 m + e) - e) in
    let m1 := m / 2 ^ (e1 - e) in
    (m1 <= m2 <= m1 + 1)
    /\ e2 = e1 + Z.max 0 (fexp prec emax (Zdigits2 m2 + e1) - e1)
    /\ m3 = m2 / 2 ^ (e2 - e1)
    /\ binary_round_aux prec emax s m e l
       = match m3 with
         | Z0 => S754_zero s
         | Zpos p =>
             if e2 <=? emax - prec then S754_finite s p e2
             else S754_infinity s
         | Zneg _ => S754_nan
         end.
Proof.
  intros H. unfold binary_round_aux.
  pose proof (shr_fexp_spec m e l H) as [A1 A2].
  destruct (shr_fexp prec emax m e l) as [mrs1 e1'] eqn:E1. simpl in A1, A2.
  set (m2 := round_nearest_even (shr_m mrs1) (loc_of_shr_record mrs1)).
  assert (Hm1 : 0 <= shr_m mrs1).
  { rewrite A1. apply Z.div_pos; [lia|]. apply Z.pow_pos_nonneg; lia. }
  pose proof (round_nearest_even_bounds (shr_m mrs1) (loc_of_shr_record mrs1))
    as B. fold m2 in B.
  assert (Hm2 : 0 <= m2) by lia.
  pose proof (shr_fexp_spec m2 e1' loc_Exact Hm2) as [C1 C2].
  destruct (shr_fexp prec emax m2 e1' loc_Exact) as [mrs2 e2'] eqn:E2.
  simpl in C1, C2.
  exists m2, e2', (shr_m mrs2). cbv zeta.
  rewrite <- A2.
  replace (e1' - e) with (Z.max 0 (fexp prec emax (Zdigits2 m + e) - e)) by lia.
  rewrite <- A1. split; [exact B|]. split; [exact C2|].
  split; [|reflexivity].
  rewrite C1. f_equal. f_equal. lia.
Qed.

Lemma fexp_eq (z : Z) : fexp prec emax z = Z.max (z - 53) (-1074).
Proof. reflexivity. Qed.

Lemma pow2_pos (k : Z) : 0 <= k -> 0 < 2 ^ k.
Proof. intros. apply Z.pow_pos_nonneg; lia. Qed.

Lemma pow2_split (a b : Z) : 0 <= a -> 0 <= b -> 2 ^ (a + b) = 2 ^ a * 2 ^ b.
Proof. intros. apply Z.pow_add_r; assumption. Qed.

Lemma div_pow2_lt (m a b : Z) :
  0 <= a -> 0 <= b -> m < 2 ^ (a + b) -> m / 2 ^ a < 2 ^ b.
Proof.
  intros Ha Hb H. apply Z.div_lt_upper_bound; [apply pow2_pos; lia|].
  rewrite <- pow2_split by lia. assumption.
Qed.

Lemma div_pow2_le (m a b : Z) :
  0 <= a -> 0 <= b -> m <= 2 ^ (a + b) -> m / 2 ^ a <= 2 ^ b.
Proof.
  intros Ha Hb H. apply Z.div_le_upper_bound; [apply pow2_pos; lia|].
  rewrite <- pow2_split by lia. assumption.
Qed.

(** A mantissa strictly below 2^(k - e) rounds to a value of at most
    2^k, which is finite for k up to emax - prec. *)
Lemma binary_round_aux_le_pow2 (s : bool) (m e : Z) (l : location) (k : Z) :
  0 <= m -> e <= k -> m < 2 ^ (k - e) -> -1074 <= k <= 971 ->
  match binary_round_aux prec emax s m e l with
  | S754_zero s' => s' = s
  | S754_finite s' p e' => s' = s /\ e' <= k /\ Z.pos p <= 2 ^ (k - e')
  | _ => False
  end.
Proof.
  intros Hm He Hlt Hk.
  destruct (binary_round_aux_spec s m e l Hm)
    as (m2 & e2 & m3 & B & E2 & E3 & ->).
  cbv zeta in B.
  set (e1 := e + Z.max 0 (fexp prec emax (Zdigits2 m + e) - e)) in *.
  pose proof (Zdigits2_le m (k - e) Hm ltac:(lia) Hlt) as D.
  pose proof (Zdigits2_nonneg m) as D0.
  assert (H1 : e <= e1 <= k) by (unfold e1; rewrite fexp_eq; lia).
  assert (L1 : m / 2 ^ (e1 - e) < 2 ^ (k - e1)).
  { apply div_pow2_lt; try lia. replace (e1 - e + (k - e1)) with (k - e) by lia.
    assumption. }
  assert (P1 : 0 <= m / 2 ^ (e1 - e)).
  { apply Z.div_pos; [lia|apply pow2_pos; lia]. }
  assert (Hm2 : 0 <= m2) by lia.
  assert (L2 : m2 <= 2 ^ (k - e1)) by lia.
  assert (D2 : Zdigits2 m2 <= k - e1 + 1).
  { apply Zdigits2_le; try lia.
    rewrite pow2_split by lia. change (2 ^ 1) with 2.
    pose proof (pow2_pos (k - e1)). lia. }
  pose proof (Zdigits2_nonneg m2) as D20.
  assert (H2 : e1 <= e2 <= k) by (rewrite E2, fexp_eq; lia).
  assert (L3 : m3 <= 2 ^ (k - e2)).
  { rewrite E3. apply div_pow2_le; try lia.
    replace (e2 - e1 + (k - e2)) with (k - e1) by lia. assumption. }
  assert (P3 : 0 <= m3).
  { rewrite E3. apply Z.div_pos; [lia|apply pow2_pos; lia]. }
  destruct m3 as [|p|p]; [reflexivity| |lia].
  replace (e2 <=? emax - prec) with true
    by (symmetry; apply Z.leb_le; unfold emax, prec; lia).
  split; [reflexivity|]. split; [lia|assumption].
Qed.

(** A mantissa whose value is below 2^emax, and below the largest float
    when its exponent after the shift is the largest one, does not
    overflow. *)
Lemma binary_round_aux_no_overflow (s : bool) (m e : Z) (l : location) :
  0 <= m -> e <= 971 -> m < 2 ^ (1024 - e) ->
  (forall n, 0 <= n -> e + n = 971 -> m / 2 ^ n <= 2 ^ 53 - 2) ->
  match binary_round_aux prec emax s m e l with
  | S754_zero s' | S754_finite s' _ _ => s' = s
  | _ => False
  end.
Proof.
  intros Hm He Hlt Hcorner.
  destruct (binary_round_aux_spec s m e l Hm)
    as (m2 & e2 & m3 & B & E2 & E3 & ->).
  cbv zeta in B.
  set (e1 := e + Z.max 0 (fexp prec emax (Zdigits2 m + e) - e)) in *.
  pose proof (Zdigits2_le m (1024 - e) Hm ltac:(lia) Hlt) as D.
  pose proof (Zdigits2_nonneg m) as D0.
  pose proof (Zdigits2_gt m Hm) as G.
  assert (H1 : e <= e1 <= 971) by (unfold e1; rewrite fexp_eq; lia).
  assert (N1 : Zdigits2 m - 53 <= e1 - e) by (unfold e1; rewrite fexp_eq; lia).
  assert (L1 : m / 2 ^ (e1 - e) < 2 ^ 53).
  { apply div_pow2_lt; try lia.
    apply Z.lt_le_trans with (1 := G).
    apply Z.pow_le_mono_r; lia. }
  assert (P1 : 0 <= m / 2 ^ (e1 - e)).
  { apply Z.div_pos; [lia|apply pow2_pos; lia]. }
  assert (Hm2 : 0 <= m2) by lia.
  pose proof (Zdigits2_nonneg m2) as D20.
  assert (H2 : e1 <= e2 <= 971).
  { destruct (Z.eq_dec e1 971) as [E|E].
    - assert (m / 2 ^ (e1 - e) <= 2 ^ 53 - 2) by (apply Hcorner; lia).
      assert (D2 : Zdigits2 m2 <= 53) by (apply Zdigits2_le; lia).
      rewrite E2, fexp_eq. lia.
    - assert (D2 : Zdigits2 m2 <= 54) by (apply Zdigits2_le; lia).
      rewrite E2, fexp_eq. lia. }
  assert (P3 : 0 <= m3).
  { rewrite E3. apply Z.div_pos; [lia|apply pow2_pos; lia]. }
  destruct m3 as [|p|p]; [reflexivity| |lia].
  replace (e2 <=? emax - prec) with true
    by (symmetry; apply Z.leb_le; unfold emax, prec; lia).
  reflexivity.
Qed.

Lemma binary_round_aux_sign (s : bool) (m e : Z) (l : location) :
  match binary_round_aux prec emax s m e l with
  | S754_zero s' | S754_infinity s' | S754_finite s' _ _ => s' = s
  | S754_nan => True
  end.
Proof.
  unfold binary_round_aux.
  destruct (shr_fexp prec emax m e l) as [mrs1 e1].
  destruct (shr_fexp prec emax _ e1 loc_Exact) as [mrs2 e2].
  destruct (shr_m mrs2); [reflexivity| |exact I].
  destruct (e2 <=? emax - prec); reflexivity.
Qed.

Lemma binary_round_aux_number (s : bool) (m e : Z) (l : location) :
  0 <= m -> binary_round_aux prec emax s m e l <> S754_nan.
Proof.
  intros Hm.
  destruct (binary_round_aux_spec s m e l Hm)
    as (m2 & e2 & m3 & B & E2 & E3 & ->).
  cbv zeta in B.
  assert (0 <= m3).
  { rewrite E3. apply Z.div_pos.
    - assert (0 <= m / 2 ^ (e + Z.max 0 (fexp prec emax (Zdigits2 m + e) - e)
                              - e)).
      { apply Z.div_pos; [lia|apply pow2_pos; lia]. }
      lia.
    - apply pow2_pos. rewrite E2. lia. }
  destruct m3; [discriminate| |lia].
  destruct (e2 <=? emax - prec); discriminate.
Qed.

Lemma valid_finite (s : bool) (m : positive) (e : Z) :
  valid_binary (S754_finite s m e) = true ->
  Z.pos (digits2_pos m) <= 53 /\ -1074 <= e <= 971
  /\ (e = -1074 \/ Z.pos (digits2_pos m) = 53)
  /\ Z.pos m < 2 ^ 53.
Proof.
  unfold valid_binary, bounded, canonical_mantissa.
  rewrite andb_true_iff, Z.eqb_eq, Z.leb_le, fexp_eq.
  unfold emax, prec. intros [C B].
  pose proof (digits2_pos_bounds m) as [_ G].
  assert (Z.pos (digits2_pos m) <= 53) by lia.
  split; [lia|]. split; [lia|]. split; [lia|].
  apply Z.lt_le_trans with (1 := G). apply Z.pow_le_mono_r; lia.
Qed.

Lemma unitSF_finiteSF v : unitSF v -> finiteSF v.
Proof. destruct v as [| | |[] ? ?]; simpl; tauto. Qed.

Lemma shl_align_spec (m : positive) (e e' : Z) :
  snd (shl_align m e e') = Z.min e e'
  /\ Z.pos (fst (shl_align m e e')) = Z.pos m * 2 ^ (e - Z.min e e').
Proof.
  unfold shl_align. destruct (e' - e) as [|d|d] eqn:E; cbv [fst snd].
  - replace (e - Z.min e e') with 0 by lia. rewrite Z.pow_0_r. lia.
  - replace (e - Z.min e e') with 0 by lia. rewrite Z.pow_0_r. lia.
  - change (Pos.iter xO m d) with (shift_pos d m).
    rewrite shift_pos_correct.
    replace (e - Z.min e e') with (Z.pos d) by lia.
    split; [lia|]. change (Z.pow_pos 2 d) with (2 ^ Z.pos d). lia.
Qed.

Lemma round_to_unit (s : bool) (m e : Z) (l : location) :
  0 <= m -> e <= 0 -> m < 2 ^ (- e) ->
  match binary_round_aux prec emax s m e l with
  | S754_zero _ => True
  | S754_finite s' p e' => s' = s /\ e' <= 0 /\ Z.pos p <= 2 ^ (- e')
  | _ => False
  end.
Proof.
  intros Hm He Hlt.
  pose proof (binary_round_aux_le_pow2 s m e l 0 Hm He) as R.
  replace (0 - e) with (- e) in R by lia.
  specialize (R Hlt ltac:(lia)).
  destruct (binary_round_aux prec emax s m e l) as [| | |s' p e']; tauto.
Qed.

Lemma valid_pow2_is_one (s : bool) (m : positive) (e : Z) :
  valid_binary (S754_finite s m e) = true -> e <= 0 ->
  Z.pos m = 2 ^ (- e) -> m = 4503599627370496%positive /\ e = -52.
Proof.
  intros V He Hm. apply valid_finite in V as (D & B & C & _).
  pose proof (digits2_pos_bounds m) as [L G]. rewrite Hm in L, G.
  apply Z.pow_le_mono_r_iff in L; try lia.
  apply Z.pow_lt_mono_r_iff in G; try lia.
  assert (e = -52) by lia. subst e. split; [|reflexivity].
  apply Pos2Z.inj. rewrite Hm. reflexivity.
Qed.

(** 1 - y for 0 <= y <= 1. *)
Lemma SFsub_one_unit (y : spec_float) :
  unitSF y -> unitSF (SFsub prec emax oneSF y).
Proof.
  intros U. destruct y as [sy| | |[] my ey]; try contradiction.
  - vm_compute. split; intros H; discriminate H.
  - destruct U as [He Hm]. unfold SFsub, oneSF, cond_Zopp.
    set (ez := Z.min (-52) ey).
    destruct (shl_align_spec 4503599627370496 (-52) ez) as [_ A].
    destruct (shl_align_spec my ey ez) as [_ B].
    replace (Z.min (-52) ez) with ez in A by lia.
    replace (Z.min ey ez) with ez in B by lia.
    set (a := fst (shl_align 4503599627370496 (-52) ez)) in *.
    set (b := fst (shl_align my ey ez)) in *.
    assert (Ea : Z.pos a = 2 ^ (- ez)).
    { rewrite A. change 4503599627370496 with (2 ^ 52).
      rewrite <- pow2_split by lia. f_equal. lia. }
    assert (Eb : Z.pos b <= 2 ^ (- ez)).
    { rewrite B. replace (- ez) with (- ey + (ey - ez)) by lia.
      rewrite pow2_split by lia.
      apply Z.mul_le_mono_nonneg_r; [|assumption].
      pose proof (pow2_pos (ey - ez)). lia. }
    destruct (Z.pos a - Z.pos b) as [|p|p] eqn:E; simpl binary_normalize.
    + exact I.
    + unfold binary_round.
      destruct (shl_align_spec p ez
                  (fexp prec emax (Z.pos (digits2_pos p) + ez))) as [S1 S2].
      destruct (shl_align p ez _) as [mz ez']. cbv [fst snd] in S1, S2.
      assert (R : match binary_round_aux prec emax false (Z.pos mz) ez'
                          loc_Exact with
                  | S754_zero _ => True
                  | S754_finite s' q e' =>
                      s' = false /\ e' <= 0 /\ Z.pos q <= 2 ^ (- e')
                  | _ => False
                  end).
      { apply round_to_unit; try lia.
        rewrite S2. replace (- ez') with (- ez + (ez - ez')) by lia.
        rewrite pow2_split by lia. rewrite <- S1.
        apply Z.mul_lt_mono_pos_r; [apply pow2_pos; lia|lia]. }
      destruct (binary_round_aux _ _ _ _ _ _) as [| | |s' q e']; try tauto.
      destruct R as (-> & R). exact R.
    + lia.
Qed.

Lemma SFmul_unit (x y : spec_float) :
  valid_binary x = true -> valid_binary y = true ->
  unitSF x -> unitSF y -> unitSF (SFmul prec emax x y).
Proof.
  intros Vx Vy Ux Uy.
  destruct x as [sx| | |[] mx ex]; try contradiction;
    destruct y as [sy| | |[] my ey]; try contradiction;
    try exact I.
  destruct Ux as [Hex Hmx]. destruct Uy as [Hey Hmy].
  pose proof (pow2_pos (- ex) ltac:(lia)) as Px.
  pose proof (pow2_pos (- ey) ltac:(lia)) as Py.
  destruct (Z.eq_dec (Z.pos mx * Z.pos my) (2 ^ (- ex) * 2 ^ (- ey)))
    as [E|N].
  - assert (Ex : Z.pos mx = 2 ^ (- ex)) by nia.
    assert (Ey : Z.pos my = 2 ^ (- ey)) by nia.
    destruct (valid_pow2_is_one _ _ _ Vx Hex Ex) as [-> ->].
    destruct (valid_pow2_is_one _ _ _ Vy Hey Ey) as [-> ->].
    vm_compute. split; intros H; discriminate H.
  - unfold SFmul.
    assert (L : Z.pos (mx * my) < 2 ^ (- (ex + ey))).
    { rewrite Pos2Z.inj_mul. replace (- (ex + ey)) with (- ex + - ey) by lia.
      rewrite pow2_split by lia. nia. }
    assert (R := round_to_unit (xorb false false) (Z.pos (mx * my)) (ex + ey)
                   loc_Exact ltac:(lia) ltac:(lia) L).
    destruct (binary_round_aux _ _ _ _ _ _) as [| | |s' q e'];
      try contradiction; [exact I|].
    destruct R as (-> & R). exact R.
Qed.

(** x / c for 0 <= x < c, where c is a normal number. *)
Lemma SFdiv_unit (x : spec_float) (m2 : positive) (e2 : Z) :
  valid_binary x = true -> 2 ^ 52 <= Z.pos m2 -> notNegativeSF x ->
  SFcompare x (S754_finite false m2 e2) = Some Lt ->
  unitSF (SFdiv prec emax x (S754_finite false m2 e2)).
Proof.
  intros V N P C.
  destruct x as [s|[]| |[] m1 e1]; try contradiction; try discriminate.
  - exact I.
  - apply valid_finite in V as (_ & _ & _ & M1).
    assert (H : e1 <= e2 /\ Z.pos m1 < Z.pos m2 * 2 ^ (e2 - e1)).
    { simpl in C. destruct (e1 ?= e2) eqn:E; try discriminate.
      - apply Z.compare_eq in E. subst e2. split; [lia|].
        replace (e1 - e1) with 0 by lia. rewrite Z.pow_0_r.
        injection C as C.
        change (Pos.compare_cont Eq m1 m2) with (m1 ?= m2)%positive in C.
        rewrite Pos.compare_lt_iff in C. lia.
      - rewrite Z.compare_lt_iff in E. split; [lia|].
        assert (2 ^ 1 <= 2 ^ (e2 - e1)) by (apply Z.pow_le_mono_r; lia).
        change (2 ^ 1) with 2 in *. nia. }
    destruct H as [He Hm].
    unfold SFdiv, SFdiv_core_binary.
    set (e' := Z.min (fexp prec emax
                        (Zdigits2 (Z.pos m1) + e1 - (Zdigits2 (Z.pos m2) + e2)))
                 (e1 - e2)).
    set (m' := match e1 - e2 - e' with
               | 0 => Z.pos m1
               | Z.pos _ => Z.shiftl (Z.pos m1) (e1 - e2 - e')
               | Z.neg _ => 0
               end).
    assert (Em : m' = Z.pos m1 * 2 ^ (e1 - e2 - e')).
    { unfold m'. destruct (e1 - e2 - e') as [|p|p] eqn:E.
      - rewrite Z.pow_0_r. lia.
      - apply Z.shiftl_mul_pow2. lia.
      - unfold e' in E. lia. }
    destruct (Z.div_eucl m' (Z.pos m2)) as [q r] eqn:E.
    assert (Eq : q = m' / Z.pos m2) by (unfold Z.div; rewrite E; reflexivity).
    assert (He' : e' <= 0) by (unfold e'; lia).
    assert (Hs : 0 <= e1 - e2 - e') by (unfold e'; lia).
    assert (L : q < 2 ^ (- e')).
    { rewrite Eq. apply Z.div_lt_upper_bound; [lia|].
      rewrite Em. replace (- e') with ((e2 - e1) + (e1 - e2 - e')) by lia.
      rewrite pow2_split by lia.
      pose proof (pow2_pos (e1 - e2 - e') Hs). nia. }
    assert (Q : 0 <= q).
    { rewrite Eq. apply Z.div_pos; [|lia]. rewrite Em.
      pose proof (pow2_pos (e1 - e2 - e') Hs). nia. }
    assert (R := round_to_unit (xorb false false) q e'
                   (new_location (Z.pos m2) r) Q He' L).
    destruct (binary_round_aux _ _ _ _ _ _) as [| | |s' p e''];
      try contradiction; [exact I|].
    destruct R as (-> & R). exact R.
Qed.

(** x * y for a number x and 0 <= y <= 1 is a number. *)
Lemma SFmul_finite_unit (x y : spec_float) :
  valid_binary x = true -> valid_binary y = true ->
  finiteSF x -> unitSF y -> finiteSF (SFmul prec emax x y).
Proof.
  intros Vx Vy Fx Uy.
  destruct x as [sx| | |sx mx ex]; try contradiction;
    destruct y as [sy| | |[] my ey]; try contradiction; try exact I.
  destruct Uy as [Hey Hmy].
  pose proof Vx as Vx'. apply valid_finite in Vx' as (_ & Bx & _ & Mx).
  pose proof (pow2_pos (- ey) ltac:(lia)) as Py.
  destruct (Z.eq_dec (Z.pos my) (2 ^ (- ey))) as [E|N].
  - destruct (valid_pow2_is_one _ _ _ Vy Hey E) as [-> ->].
    destruct (Z.eq_dec ex 971) as [Ee|Ne];
      [destruct (Z.eq_dec (Z.pos mx) (2 ^ 53 - 1)) as [Em|Nm]|].
    + subst ex. change (2 ^ 53 - 1) with 9007199254740991 in Em.
      injection Em as ->. destruct sx; exact I.
    + unfold SFmul.
      assert (R := binary_round_aux_no_overflow (xorb sx false)
                     (Z.pos (mx * 4503599627370496)) (ex + -52) loc_Exact).
      assert (H1 : Z.pos (mx * 4503599627370496) < 2 ^ (1024 - (ex + -52))).
      { rewrite Pos2Z.inj_mul. change 4503599627370496 with (2 ^ 52).
        replace (1024 - (ex + -52)) with (1024 - ex + 52) by lia.
        rewrite pow2_split by lia.
        assert (2 ^ 53 <= 2 ^ (1024 - ex)) by (apply Z.pow_le_mono_r; lia).
        nia. }
      assert (H2 : forall n, 0 <= n -> ex + -52 + n = 971 ->
                     Z.pos (mx * 4503599627370496) / 2 ^ n <= 2 ^ 53 - 2).
      { intros n Hn En. replace n with 52 by lia. rewrite Pos2Z.inj_mul.
        change 4503599627370496 with (2 ^ 52).
        rewrite Z.div_mul by lia. lia. }
      specialize (R ltac:(lia) ltac:(lia) H1 H2).
      destruct (binary_round_aux _ _ _ _ _ _); try contradiction; exact I.
    + unfold SFmul.
      assert (R := binary_round_aux_no_overflow (xorb sx false)
                     (Z.pos (mx * 4503599627370496)) (ex + -52) loc_Exact).
      assert (H1 : Z.pos (mx * 4503599627370496) < 2 ^ (1024 - (ex + -52))).
      { rewrite Pos2Z.inj_mul. change 4503599627370496 with (2 ^ 52).
        replace (1024 - (ex + -52)) with (1024 - ex + 52) by lia.
        rewrite pow2_split by lia.
        assert (2 ^ 53 <= 2 ^ (1024 - ex)) by (apply Z.pow_le_mono_r; lia).
        nia. }
      assert (H2 : forall n, 0 <= n -> ex + -52 + n = 971 ->
                     Z.pos (mx * 4503599627370496) / 2 ^ n <= 2 ^ 53 - 2).
      { intros n Hn En. replace n with (52 + (971 - ex)) by lia.
        rewrite pow2_split by lia. rewrite Pos2Z.inj_mul.
        change 4503599627370496 with (2 ^ 52).
        rewrite <- Z.div_div by (try apply pow2_pos; lia).
        rewrite Z.div_mul by lia.
        assert (2 ^ 1 <= 2 ^ (971 - ex)) by (apply Z.pow_le_mono_r; lia).
        change (2 ^ 1) with 2 in *.
        assert (Z.pos mx / 2 ^ (971 - ex) < 2 ^ 52); [|lia].
        apply Z.div_lt_upper_bound; [lia|].
        change (2 ^ 52) with 4503599627370496.
        change (2 ^ 53) with 9007199254740992 in Mx. nia. }
      specialize (R ltac:(lia) ltac:(lia) H1 H2).
      destruct (binary_round_aux _ _ _ _ _ _); try contradiction; exact I.
  - unfold SFmul.
    assert (R := binary_round_aux_no_overflow (xorb sx false)
                   (Z.pos (mx * my)) (ex + ey) loc_Exact).
    assert (H1 : Z.pos (mx * my) < 2 ^ (1024 - (ex + ey))).
    { rewrite Pos2Z.inj_mul.
      replace (1024 - (ex + ey)) with (1024 - ex + - ey) by lia.
      rewrite pow2_split by lia.
      assert (2 ^ 53 <= 2 ^ (1024 - ex)) by (apply Z.pow_le_mono_r; lia).
      nia. }
    assert (H2 : forall n, 0 <= n -> ex + ey + n = 971 ->
                   Z.pos (mx * my) / 2 ^ n <= 2 ^ 53 - 2).
    { intros n Hn En. replace n with (- ey + (971 - ex)) by lia.
      rewrite pow2_split by lia. rewrite Pos2Z.inj_mul.
      assert (Z.pos mx * Z.pos my / (2 ^ (- ey) * 2 ^ (971 - ex)) < 2 ^ 53 - 1);
        [|lia].
      apply Z.div_lt_upper_bound.
      - pose proof (pow2_pos (971 - ex) ltac:(lia)). nia.
      - pose proof (pow2_pos (971 - ex) ltac:(lia)).
        change (2 ^ 53) with 9007199254740992 in *. nia. }
    specialize (R ltac:(lia) ltac:(lia) H1 H2).
    destruct (binary_round_aux _ _ _ _ _ _); try contradiction; exact I.
Qed.

Lemma binary_normalize_number (m e : Z) (s : bool) :
  binary_normalize prec emax m e s <> S754_nan.
Proof.
  destruct m as [|p|p]; simpl; [discriminate| |];
    unfold binary_round; destruct (shl_align _ _ _) as [mz ez];
    apply binary_round_aux_number; lia.
Qed.

(** Adding or subtracting a finite term never turns a number into NaN. *)
Lemma SFadd_number (x y : spec_float) :
  x <> S754_nan -> finiteSF y -> SFadd prec emax x y <> S754_nan.
Proof.
  intros Hx Hy.
  destruct x as [sx|sx| |sx mx ex]; try contradiction;
    destruct y as [sy| | |sy my ey]; try contradiction;
    try discriminate; try (destruct sx, sy; discriminate).
  apply binary_normalize_number.
Qed.

Lemma SFsub_number (x y : spec_float) :
  x <> S754_nan -> finiteSF y -> SFsub prec emax x y <> S754_nan.
Proof.
  intros Hx Hy.
  destruct x as [sx|sx| |sx mx ex]; try contradiction;
    destruct y as [sy| | |sy my ey]; try contradiction;
    try discriminate; try (destruct sx, sy; discriminate).
  apply binary_normalize_number.
Qed.

Lemma SFsqrt_notNegative (x : spec_float) :
  notNegativeSF (SFsqrt prec emax x).
Proof.
  destruct x as [s|[]| |[] m e]; try exact I.
  unfold SFsqrt.
  destruct (SFsqrt_core_binary prec emax (Z.pos m) e) as [[mz ez] lz].
  pose proof (binary_round_aux_sign false mz ez lz) as S.
  destruct (binary_round_aux _ _ _ _ _ _) as [| | |]; try exact I;
    subst; exact I.
Qed.

End Rounding.

(** ** The terms of the field functions *)

Lemma is_finite_finiteSF (v : float) :
  is_finite v = true -> finiteSF (Prim2SF v).
Proof.
  unfold is_finite, is_infinity. intros H.
  apply negb_true_iff, orb_false_iff in H as [Hn Hi].
  apply is_nan_spec in Hn.
  rewrite FloatAxioms.eqb_spec, abs_spec in Hi.
  destruct (Prim2SF v) as [s|s| |s m e]; try exact I.
  - destruct s; discriminate Hi.
  - congruence.
Qed.

Lemma finiteSF_number (v : spec_float) : finiteSF v -> v <> S754_nan.
Proof. destruct v; simpl; intros H; try contradiction; discriminate. Qed.

(** [distance / c] for [distance < c] lies in the unit interval. *)
Lemma distance_ratio_unit (a b : Vector2D) (c : float) (mc : positive)
    (ec : Z) :
  Prim2SF c = S754_finite false mc ec -> (2 ^ 52 <= Z.pos mc)%Z ->
  (distanceBetween a b <? c) = true ->
  unitSF (Prim2SF (distanceBetween a b / c)).
Proof.
  intros Ec Hc Hlt. rewrite div_spec, Ec.
  rewrite FloatAxioms.ltb_spec, Ec in Hlt. unfold SFltb in Hlt.
  apply SFdiv_unit.
  - apply Prim2SF_valid.
  - assumption.
  - unfold distanceBetween, Math_sqrt. rewrite sqrt_spec.
    apply SFsqrt_notNegative.
  - destruct (SFcompare _ _) as [[]|]; try discriminate. reflexivity.
Qed.

Lemma falloff_unit (a b : Vector2D) (c : float) (mc : positive) (ec : Z) :
  Prim2SF c = S754_finite false mc ec -> (2 ^ 52 <= Z.pos mc)%Z ->
  (distanceBetween a b <? c) = true ->
  unitSF (Prim2SF (1 - distanceBetween a b / c)).
Proof.
  intros Ec Hc Hlt. rewrite sub_spec.
  change (Prim2SF 1) with oneSF.
  apply SFsub_one_unit. eapply distance_ratio_unit; eassumption.
Qed.

Lemma energy_term_finite (i : float) (a b : Vector2D) :
  is_finite i = true ->
  (distanceBetween a b <? MAX_ENERGY_DISTANCE) = true ->
  finiteSF
    (Prim2SF (i * Math_pow2 (1 - distanceBetween a b / MAX_ENERGY_DISTANCE))).
Proof.
  intros Hi Hlt.
  assert (U : unitSF (Prim2SF (1 - distanceBetween a b / MAX_ENERGY_DISTANCE))).
  { apply (falloff_unit a b _ 7036874417766400 (-45)%Z);
      [reflexivity|lia|assumption]. }
  unfold Math_pow2. rewrite mul_spec.
  apply SFmul_finite_unit; try apply Prim2SF_valid.
  - apply is_finite_finiteSF, Hi.
  - rewrite mul_spec. apply SFmul_unit; try apply Prim2SF_valid; assumption.
Qed.

Lemma complexity_term_finite (i : float) (a b : Vector2D) :
  is_finite i = true -> (distanceBetween a b <? 100) = true ->
  finiteSF (Prim2SF (i * (1 - distanceBetween a b / 100)))
  /\ finiteSF (Prim2SF (i * (1 - distanceBetween a b / 100) * 0.5)).
Proof.
  intros Hi Hlt.
  assert (U : unitSF (Prim2SF (1 - distanceBetween a b / 100))).
  { apply (falloff_unit a b _ 7036874417766400 (-46)%Z);
      [reflexivity|lia|assumption]. }
  assert (F : finiteSF (Prim2SF (i * (1 - distanceBetween a b / 100)))).
  { rewrite mul_spec. apply SFmul_finite_unit; try apply Prim2SF_valid.
    - apply is_finite_finiteSF, Hi.
    - assumption. }
  split; [exact F|].
  rewrite mul_spec. apply SFmul_finite_unit; try apply Prim2SF_valid.
  - exact F.
  - change (Prim2SF 0.5) with (S754_finite false 4503599627370496 (-53)).
    simpl. lia.
Qed.

Lemma add_finite_number (acc t : float) :
  is_nan acc = false -> finiteSF (Prim2SF t) -> is_nan (acc + t) = false.
Proof.
  intros Ha Ht. apply is_nan_spec. rewrite add_spec.
  apply SFadd_number; [apply is_nan_spec, Ha|exact Ht].
Qed.

Lemma sub_finite_number (acc t : float) :
  is_nan acc = false -> finiteSF (Prim2SF t) -> is_nan (acc - t) = false.
Proof.
  intros Ha Ht. apply is_nan_spec. rewrite sub_spec.
  apply SFsub_number; [apply is_nan_spec, Ha|exact Ht].
Qed.

Lemma energyStep_number (pos : Vector2D) (acc : float) (r : ResourcePoint) :
  is_finite (intensity r) = true -> is_nan acc = false ->
  is_nan (energyStep pos acc r) = false.
Proof.
  intros Hi Ha. unfold energyStep.
  destruct (rtype r); try assumption.
  destruct (distanceBetween pos (rposition r) <? MAX_ENERGY_DISTANCE) eqn:D;
    [|assumption].
  apply add_finite_number; [assumption|].
  apply energy_term_finite; assumption.
Qed.

Lemma complexityStep_number (pos : Vector2D) (acc : float)
    (r : ResourcePoint) :
  is_finite (intensity r) = true -> is_nan acc = false ->
  is_nan (complexityStep pos acc r) = false.
Proof.
  intros Hi Ha. unfold complexityStep.
  destruct (distanceBetween pos (rposition r) <? 100) eqn:D; [|assumption].
  destruct (complexity_term_finite _ pos (rposition r) Hi D) as [F1 F2].
  destruct (rtype r); try assumption.
  - apply sub_finite_number; assumption.
  - apply add_finite_number; assumption.
Qed.

Lemma fold_number (step : float -> ResourcePoint -> float)
    (rs : list ResourcePoint) :
  (forall acc r, is_finite (intensity r) = true -> is_nan acc = false ->
                 is_nan (step acc r) = false) ->
  finiteIntensities rs ->
  forall acc, is_nan acc = false -> is_nan (fold_left step rs acc) = false.
Proof.
  intros Hs. unfold finiteIntensities.
  induction 1 as [|r rs Hr _ IH]; intros acc Ha; simpl.
  - assumption.
  - apply IH, Hs; assumption.
Qed.

(** * The loop of a tick *)

Section LoopFacts.
Context {M : MathLib}.
Variable resources : list ResourcePoint.
Variable prevNodes : list PlantNode.

Local Abbreviation process := (processNode resources prevNodes).

Lemma growthBlock_newNodes node st :
  newNodes (growthBlock resources prevNodes node st) = newNodes st.
Proof.
  unfold growthBlock. destruct (growthEligible _ _); [|reflexivity].
  simpl. destruct (0.5 <? _); reflexivity.
Qed.

Lemma branchBlock_newNodes node index st :
  newNodes st !! index = Some (baseUpdate resources node) ->
  newNodes (branchBlock resources prevNodes node index st)
  = <[index := updatedNode resources prevNodes node]> (newNodes st).
Proof.
  intros H. unfold branchBlock, updatedNode.
  destruct (branchCondition _ _ _).
  - simpl. rewrite H. reflexivity.
  - symmetry. apply list_insert_id. assumption.
Qed.

Lemma processNode_newNodes st node index :
  (index < length (newNodes st))%nat ->
  newNodes (process st node index)
  = if (20 <? age node)%Z then newNodes st
    else <[index := updatedNode resources prevNodes node]> (newNodes st).
Proof.
  intros Hlt. unfold processNode. destruct (20 <? age node)%Z; [reflexivity|].
  rewrite growthBlock_newNodes, branchBlock_newNodes.
  - simpl. apply list_insert_insert_eq.
  - simpl. apply list_lookup_insert_eq. assumption.
Qed.

Lemma forEachFrom_newNodes rest : forall done st,
  newNodes st = map (settledNode resources prevNodes) done ++ rest ->
  newNodes (forEachFrom resources prevNodes rest (length done) st)
  = map (settledNode resources prevNodes) (done ++ rest).
Proof.
  induction rest as [|node rest IH]; intros done st H; simpl.
  - rewrite H, !app_nil_r. reflexivity.
  - replace (S (length done)) with (length (done ++ [node]))
      by (rewrite length_app; simpl; lia).
    replace (done ++ node :: rest) with ((done ++ [node]) ++ rest)
      by (rewrite <- app_assoc; reflexivity).
    apply IH.
    rewrite processNode_newNodes
      by (rewrite H, length_app, length_map; simpl; lia).
    rewrite map_app. simpl. rewrite <- app_assoc. simpl.
    rewrite H.
    replace (length done)
      with (length (map (settledNode resources prevNodes) done) + 0)%nat
      by (rewrite length_map; lia).
    rewrite insert_app_r. simpl.
    unfold settledNode at 2 4.
    destruct (20 <? age node)%Z; reflexivity.
Qed.

Lemma branchBlock_nodesToAdd node index st :
  nodesToAdd (branchBlock resources prevNodes node index st)
  = nodesToAdd st ++
    (if branchCondition resources prevNodes node
     then [branchChild resources prevNodes node st] else []).
Proof.
  unfold branchBlock, branchChild.
  destruct (branchCondition _ _ _); [|symmetry; apply app_nil_r].
  simpl. destruct (newNodes st !! index); reflexivity.
Qed.

Lemma growthBlock_nodesToAdd node st :
  nodesToAdd (growthBlock resources prevNodes node st)
  = nodesToAdd st ++
    (if growthFires prevNodes node st
     then [growthChild resources prevNodes node st] else []).
Proof.
  unfold growthBlock, growthFires, growthChild.
  destruct (growthEligible _ _); simpl; [|symmetry; apply app_nil_r].
  destruct (0.5 <? _); simpl; [reflexivity|symmetry; apply app_nil_r].
Qed.

Lemma branchBlock_draws node index st :
  draws (entropy (branchBlock resources prevNodes node index st))
  = draws (entropy st).
Proof.
  unfold branchBlock. destruct (branchCondition _ _ _); [|reflexivity].
  simpl. destruct (newNodes st !! index); reflexivity.
Qed.

Lemma growthBlock_draws node st :
  draws (entropy (growthBlock resources prevNodes node st))
  = draws (entropy st).
Proof.
  unfold growthBlock. destruct (growthEligible _ _); [|reflexivity].
  simpl. destruct (0.5 <? _); reflexivity.
Qed.

Lemma processNode_draws st node index :
  draws (entropy (process st node index)) = draws (entropy st).
Proof.
  unfold processNode. destruct (20 <? age node)%Z; [reflexivity|].
  rewrite growthBlock_draws, branchBlock_draws. reflexivity.
Qed.

Lemma forEachFrom_draws rest : forall index st,
  draws (entropy (forEachFrom resources prevNodes rest index st))
  = draws (entropy st).
Proof.
  induction rest as [|node rest IH]; intros index st; simpl; [reflexivity|].
  rewrite IH. apply processNode_draws.
Qed.

Lemma processNode_nodesToAdd st node index :
  nodesToAdd (process st node index)
  = nodesToAdd st ++ childrenOf resources prevNodes node index st.
Proof.
  unfold processNode, childrenOf.
  destruct (20 <? age node)%Z; [symmetry; apply app_nil_r|].
  rewrite growthBlock_nodesToAdd, branchBlock_nodesToAdd. simpl.
  rewrite <- app_assoc. reflexivity.
Qed.

Lemma childrenOf_spec node index st :
  forall j c, childrenOf resources prevNodes node index st !! j = Some c ->
    childOf node c
    /\ id c = (length prevNodes + length (nodesToAdd st) + j)%nat.
Proof.
  unfold childrenOf. intros j c.
  destruct (20 <? age node)%Z eqn:A; [intros H; discriminate|].
  apply Z.ltb_ge in A.
  set (st1 := setNewNode _ _ _).
  set (st2 := branchBlock _ _ _ _ _).
  assert (L2 : length (nodesToAdd st2)
               = (length (nodesToAdd st)
                  + (if branchCondition resources prevNodes node
                     then 1 else 0))%nat).
  { subst st2. rewrite branchBlock_nodesToAdd, length_app. simpl.
    destruct (branchCondition _ _ _); reflexivity. }
  destruct (branchCondition _ _ _); destruct (growthFires prevNodes node st2);
    destruct j as [|[|j]]; simpl; intros H; inversion H; subst c;
    unfold childOf, branchChild, growthChild, branchNode, growthNode; simpl;
    try destruct (growthDirection _ _); simpl;
    try rewrite L2; repeat split; try assumption; try lia.
Qed.

Lemma forEachFrom_nodesToAdd rest : forall index st,
  exists extra,
    nodesToAdd (forEachFrom resources prevNodes rest index st)
    = nodesToAdd st ++ extra
    /\ forall j c, extra !! j = Some c ->
         id c = (length prevNodes + length (nodesToAdd st) + j)%nat
         /\ exists i m, rest !! i = Some m /\ childOf m c.
Proof.
  induction rest as [|node rest IH]; intros index st; simpl.
  - exists []. split; [symmetry; apply app_nil_r|]. intros j c H. discriminate.
  - destruct (IH (S index) (process st node index)) as (extra & E & P).
    rewrite processNode_nodesToAdd in E.
    exists (childrenOf resources prevNodes node index st ++ extra). split.
    + rewrite E, app_assoc. reflexivity.
    + intros j c H. apply lookup_app_Some in H as [H|[Hge H]].
      * apply childrenOf_spec in H as [Hc Hid]. split; [assumption|].
        exists 0%nat, node. split; [reflexivity|assumption].
      * apply P in H as [Hid (i & m & Hm & Hc)].
        rewrite processNode_nodesToAdd, length_app in Hid. split; [lia|].
        exists (S i), m. split; assumption.
Qed.

End LoopFacts.

Section TickFacts.
Context {M : MathLib}.

(** The list a tick returns: every previous node, settled, in place,
    followed by the new nodes, numbered from the previous length on. *)
Lemma updateNodes_shape resources g prevNodes :
  exists extra,
    fst (updateNodes resources g prevNodes)
    = map (settledNode resources prevNodes) prevNodes ++ extra
    /\ forall j c, extra !! j = Some c ->
         id c = (length prevNodes + j)%nat
         /\ exists i m, prevNodes !! i = Some m /\ childOf m c.
Proof.
  unfold updateNodes. simpl.
  set (st0 := mkTickState prevNodes [] g).
  destruct (forEachFrom_nodesToAdd resources prevNodes prevNodes 0 st0)
    as (extra & E & P).
  exists extra. split.
  - rewrite E. simpl. f_equal.
    apply (forEachFrom_newNodes resources prevNodes prevNodes [] st0).
    reflexivity.
  - intros j c H. apply P in H as [Hid Hc]. simpl in Hid.
    split; [lia|assumption].
Qed.

Lemma tick_nodes (s : State) :
  nodes (tick s) = fst (updateNodes (resources s) (random s) (nodes s)).
Proof.
  unfold tick. destruct (updateNodes _ _ _). reflexivity.
Qed.

Lemma tick_resources (s : State) : resources (tick s) = resources s.
Proof.
  unfold tick. destruct (updateNodes _ _ _). reflexivity.
Qed.

Lemma settledNode_frame resources prevNodes n :
  id (settledNode resources prevNodes n) = id n
  /\ position (settledNode resources prevNodes n) = position n
  /\ parent (settledNode resources prevNodes n) = parent n.
Proof.
  unfold settledNode, updatedNode.
  destruct (20 <? age n)%Z; [tauto|].
  destruct (branchCondition _ _ _); simpl; tauto.
Qed.

Lemma settledNode_age resources prevNodes n :
  age (settledNode resources prevNodes n)
  = if (20 <? age n)%Z then age n else (age n + 1)%Z.
Proof.
  unfold settledNode, updatedNode.
  destruct (20 <? age n)%Z; [reflexivity|].
  destruct (branchCondition _ _ _); reflexivity.
Qed.

Lemma tick_lookup_old (s : State) i n :
  nodes s !! i = Some n ->
  nodes (tick s) !! i = Some (settledNode (resources s) (nodes s) n).
Proof.
  intros H. rewrite tick_nodes.
  destruct (updateNodes_shape (resources s) (random s) (nodes s))
    as (extra & E & _).
  rewrite E. rewrite lookup_app_l.
  - rewrite list_lookup_fmap, H. reflexivity.
  - rewrite length_map. eapply lookup_lt_Some; eassumption.
Qed.

Lemma tick_lookup_new (s : State) j c :
  nodes (tick s) !! j = Some c -> (length (nodes s) <= j)%nat ->
  id c = j /\ exists i m, nodes s !! i = Some m /\ childOf m c.
Proof.
  intros H Hge. rewrite tick_nodes in H.
  destruct (updateNodes_shape (resources s) (random s) (nodes s))
    as (extra & E & P).
  rewrite E in H. rewrite lookup_app_r in H by (rewrite length_map; lia).
  rewrite length_map in H. apply P in H as [Hid Hc].
  split; [lia|assumption].
Qed.

Lemma tick_length (s : State) :
  (length (nodes s) <= length (nodes (tick s)))%nat.
Proof.
  rewrite tick_nodes.
  destruct (updateNodes_shape (resources s) (random s) (nodes s))
    as (extra & E & _).
  rewrite E, length_app, length_map. lia.
Qed.

Lemma tick_wellNumbered (s : State) :
  wellNumbered (nodes s) -> wellNumbered (nodes (tick s)).
Proof.
  intros W i n H.
  destruct (Nat.lt_ge_cases i (length (nodes s))) as [Hlt|Hge].
  - destruct (lookup_lt_is_Some_2 _ _ Hlt) as [m Hm].
    rewrite (tick_lookup_old s i m Hm) in H. inversion H; subst n.
    destruct (settledNode_frame (resources s) (nodes s) m) as [-> _].
    apply W. assumption.
  - apply tick_lookup_new in H; [tauto|assumption].
Qed.

Lemma reachable_wellNumbered width height s :
  reachable width height s -> wellNumbered (nodes s).
Proof.
  induction 1 as [g|newResources g|s _ IH|s b _ IH].
  - intros i n H. destruct i; discriminate H.
  - intros [|i] n H; simpl in H; [|discriminate].
    inversion H. reflexivity.
  - unfold timerEffect. destruct (paused s); [assumption|].
    apply tick_wellNumbered. assumption.
  - assumption.
Qed.
End TickFacts.

(** * The loop of the paths effect *)

Section PathFacts.
Variable Number_toString : float -> string.
Local Abbreviation point := (point Number_toString).
Local Abbreviation polyline := (polyline Number_toString).
Local Abbreviation expectedPath := (expectedPath Number_toString).
Local Abbreviation pathsDescribe := (pathsDescribe Number_toString).

Lemma polyline_snoc cs : forall start c,
  polyline start (cs ++ [c])
  = (polyline start cs ++ " L" ++ point (position c))%string.
Proof.
  induction cs as [|c0 cs IH]; intros start c; simpl; [reflexivity|].
  apply IH.
Qed.

Lemma findNode_id nodes wanted p :
  findNode nodes wanted = Some p -> id p = wanted.
Proof.
  unfold findNode. intros H. apply find_some in H as [_ H].
  apply Nat.eqb_eq. assumption.
Qed.

Lemma findIndex_None nodePaths wanted :
  findIndex nodePaths wanted = None ->
  List.find (fun p => (pathId p =? wanted)%nat) nodePaths = None.
Proof.
  induction nodePaths as [|p rest IH]; simpl; [reflexivity|].
  destruct (pathId p =? wanted)%nat; [discriminate|].
  destruct (findIndex rest wanted); [discriminate|].
  intros _. apply IH. reflexivity.
Qed.

Lemma findIndex_Some nodePaths wanted : forall i,
  findIndex nodePaths wanted = Some i ->
  exists e, nodePaths !! i = Some e /\ pathId e = wanted
    /\ List.find (fun p => (pathId p =? wanted)%nat) nodePaths = Some e.
Proof.
  induction nodePaths as [|p rest IH]; simpl; intros i H; [discriminate|].
  destruct (pathId p =? wanted)%nat eqn:E.
  - inversion H; subst i. exists p. apply Nat.eqb_eq in E. auto.
  - destruct (findIndex rest wanted) as [k|]; [|discriminate].
    inversion H; subst i. destruct (IH k eq_refl) as (e & He & Hid & Hf).
    exists e. auto.
Qed.

Lemma find_app_path (l1 l2 : list Path) f :
  List.find f (l1 ++ l2)
  = match List.find f l1 with Some e => Some e | None => List.find f l2 end.
Proof.
  induction l1 as [|p l1 IH]; simpl; [reflexivity|].
  destruct (f p); [reflexivity|apply IH].
Qed.

Lemma findIndex_insert nodePaths : forall i e' w q,
  findIndex nodePaths w = Some i -> pathId e' = w ->
  List.find (fun p => (pathId p =? q)%nat) (<[i := e']> nodePaths)
  = if (w =? q)%nat then Some e'
    else List.find (fun p => (pathId p =? q)%nat) nodePaths.
Proof.
  induction nodePaths as [|p rest IH]; intros i e' w q Hi He'; simpl in Hi;
    [discriminate|].
  destruct (pathId p =? w)%nat eqn:E.
  - inversion Hi; subst i. simpl. apply Nat.eqb_eq in E.
    rewrite He', E. destruct (w =? q)%nat; reflexivity.
  - destruct (findIndex rest w) as [k|] eqn:F; [|discriminate].
    inversion Hi; subst i. simpl. rewrite (IH k e' w q F He').
    destruct (pathId p =? q)%nat eqn:Q; [|reflexivity].
    destruct (w =? q)%nat eqn:W; [|reflexivity].
    apply Nat.eqb_eq in Q, W. apply Nat.eqb_neq in E. congruence.
Qed.

Lemma find_None_not_in (nodePaths : list Path) w :
  List.find (fun p => (pathId p =? w)%nat) nodePaths = None ->
  ~ In w (map pathId nodePaths).
Proof.
  intros H Hin. apply in_map_iff in Hin as (e & He & Hin).
  apply (find_none _ _ H) in Hin. apply Nat.eqb_neq in Hin. congruence.
Qed.

Lemma childrenAmong_snoc processed node q :
  childrenAmong (processed ++ [node]) q
  = childrenAmong processed q ++ (if isChildOf q node then [node] else []).
Proof.
  unfold childrenAmong. rewrite List.filter_app. simpl.
  destruct (isChildOf q node); reflexivity.
Qed.

Lemma expectedPath_other nodes processed node q :
  isChildOf q node = false ->
  expectedPath nodes (processed ++ [node]) q = expectedPath nodes processed q.
Proof.
  intros H. unfold expectedPath. rewrite childrenAmong_snoc, H, app_nil_r.
  reflexivity.
Qed.

Lemma pathStep_describes nodes processed nodePaths node :
  pathsDescribe nodes processed nodePaths ->
  pathsDescribe nodes (processed ++ [node])
    (pathStep Number_toString nodes nodePaths node).
Proof.
  intros [Hd Hn]. unfold pathStep.
  destruct (parent node) as [w|] eqn:Hp.
  2:{ split; [|assumption]. intros q. rewrite expectedPath_other; [apply Hd|].
      unfold isChildOf. rewrite Hp. reflexivity. }
  destruct (findNode nodes w) as [p|] eqn:Hf.
  2:{ split; [|assumption]. intros q. rewrite Hd. unfold expectedPath.
      destruct (Nat.eqb_spec w q) as [<-|Hne].
      - rewrite Hf. reflexivity.
      - rewrite childrenAmong_snoc.
        replace (isChildOf q node) with false;
          [rewrite app_nil_r; reflexivity|].
        unfold isChildOf. rewrite Hp. symmetry. apply Nat.eqb_neq. assumption. }
  pose proof (findNode_id _ _ _ Hf) as Hid. rewrite Hid.
  assert (Hother : forall q, (w =? q)%nat = false ->
            expectedPath nodes (processed ++ [node]) q
            = expectedPath nodes processed q).
  { intros q Hq. apply expectedPath_other. unfold isChildOf.
    rewrite Hp. assumption. }
  assert (Hself : isChildOf w node = true).
  { unfold isChildOf. rewrite Hp. apply Nat.eqb_refl. }
  destruct (findIndex nodePaths w) as [i|] eqn:Hi.
  - destruct (findIndex_Some _ _ _ Hi) as (e & He & Hew & Hfe).
    rewrite He. split.
    + intros q. unfold pathOf.
      rewrite (findIndex_insert nodePaths i
                 (mkPath (pathId e)
                    (d e ++ " L" ++ point (position node))%string)
                 w q Hi Hew).
      destruct (w =? q)%nat eqn:Hq.
      * apply Nat.eqb_eq in Hq. subst q. simpl.
        specialize (Hd w). unfold pathOf in Hd. rewrite Hfe in Hd. simpl in Hd.
        unfold expectedPath in Hd |- *. rewrite Hf in Hd |- *.
        rewrite childrenAmong_snoc, Hself.
        destruct (childrenAmong processed w) as [|first others];
          [discriminate|]. injection Hd as Hde. simpl.
        rewrite polyline_snoc, Hde. reflexivity.
      * rewrite (Hother q Hq). apply Hd.
    + rewrite list_fmap_insert. simpl.
      rewrite list_insert_id; [assumption|].
      rewrite list_lookup_fmap, He. reflexivity.
  - apply findIndex_None in Hi. split.
    + intros q. unfold pathOf. rewrite find_app_path. simpl.
      destruct (w =? q)%nat eqn:Hq.
      * apply Nat.eqb_eq in Hq. subst q. rewrite Hi. simpl.
        specialize (Hd w). unfold pathOf in Hd. rewrite Hi in Hd. simpl in Hd.
        unfold expectedPath in Hd |- *. rewrite Hf in Hd |- *.
        rewrite childrenAmong_snoc, Hself.
        destruct (childrenAmong processed w) as [|first others];
          [|discriminate]. reflexivity.
      * rewrite (Hother q Hq), <- Hd. unfold pathOf.
        destruct (List.find (fun e => (pathId e =? q)%nat) nodePaths);
          reflexivity.
    + rewrite map_app. simpl. apply NoDup_app. repeat split.
      * assumption.
      * intros v Hv Hin. apply list_elem_of_In in Hv.
        apply list_elem_of_In in Hin. simpl in Hin. destruct Hin as [<-|[]].
        revert Hv. apply find_None_not_in. assumption.
      * apply NoDup_singleton.
Qed.

Lemma fold_pathStep_describes nodes rest : forall processed nodePaths,
  pathsDescribe nodes processed nodePaths ->
  pathsDescribe nodes (processed ++ rest)
    (fold_left (pathStep Number_toString nodes) rest nodePaths).
Proof.
  induction rest as [|node rest IH]; intros processed nodePaths H; simpl.
  - rewrite app_nil_r. assumption.
  - replace (processed ++ node :: rest) with ((processed ++ [node]) ++ rest)
      by (rewrite <- app_assoc; reflexivity).
    apply IH, pathStep_describes, H.
Qed.

Lemma derivePaths_describes nodes wanted :
  pathOf (derivePaths Number_toString nodes) wanted
  = expectedPath nodes nodes wanted
  /\ NoDup (map pathId (derivePaths Number_toString nodes)).
Proof.
  destruct (fold_pathStep_describes nodes nodes [] []) as [H1 H2].
  - split; [|constructor]. intros q. unfold pathOf, expectedPath. simpl.
    destruct (findNode nodes q); reflexivity.
  - split; [apply H1|apply H2].
Qed.
End PathFacts.

(** ** The entries as path data *)

Section PathDataFacts.

Variable Number_toString : float -> string.

Lemma polyline_fold (start : string) (children : list PlantNode) :
  polyline Number_toString start children
  = fold_left
      (fun text c' => text ++ " " ++ commandText Number_toString c')%string
      (map (fun c => LineTo (position c)) children) start.
Proof.
  revert start. induction children as [|c rest IH]; intros start; simpl.
  - reflexivity.
  - apply IH.
Qed.

Lemma polyline_pathData (parentNode first : PlantNode)
    (others : list PlantNode) :
  polyline Number_toString
    ("M" ++ point Number_toString (position parentNode)
     ++ " L" ++ point Number_toString (position first))%string others
  = pathData Number_toString (pathCommands parentNode (first :: others)).
Proof.
  rewrite polyline_fold. reflexivity.
Qed.

End PathDataFacts.

Lemma segmentsFrom_lines (from : Vector2D) (children : list PlantNode) :
  segmentsFrom from (map (fun c => LineTo (position c)) children)
  = strokes from (map position children).
Proof.
  revert from. induction children as [|c rest IH]; intros from; simpl.
  - reflexivity.
  - rewrite IH. reflexivity.
Qed.

Lemma segments_pathCommands (parentNode : PlantNode)
    (children : list PlantNode) :
  segments (pathCommands parentNode children)
  = strokes (position parentNode) (map position children).
Proof. apply segmentsFrom_lines. Qed.

(** * Ticks in a row *)

Section TickConsequences.

Context {M : MathLib}.

Lemma settledNode_cases rs prevNodes n :
  (age n <= 20)%Z ->
  settledNode rs prevNodes n = baseUpdate rs n
  \/ settledNode rs prevNodes n = withDistortion (baseUpdate rs n) 0.5.
Proof.
  intros H. apply Z.ltb_ge in H. unfold settledNode, updatedNode. rewrite H.
  destruct (branchCondition _ _ _); auto.
Qed.

Lemma settledNode_inert rs prevNodes n :
  (20 < age n)%Z -> settledNode rs prevNodes n = n.
Proof.
  intros H. apply Z.ltb_lt in H. unfold settledNode. rewrite H. reflexivity.
Qed.

Lemma ticks_succ (k : nat) : forall s : State,
  ticks (S k) s = tick (ticks k s).
Proof.
  induction k as [|k IH]; intros s; [reflexivity|].
  change (ticks (S (S k)) s) with (ticks (S k) (tick s)).
  rewrite IH. reflexivity.
Qed.

Lemma ticks_wellNumbered (k : nat) (s : State) :
  wellNumbered (nodes s) -> wellNumbered (nodes (ticks k s)).
Proof.
  induction k as [|k IH]; intros W; [assumption|].
  rewrite ticks_succ. apply tick_wellNumbered, IH, W.
Qed.

Lemma tick_paused (s : State) : paused (tick s) = paused s.
Proof.
  unfold tick. destruct (updateNodes _ _ _). reflexivity.
Qed.

(** While the hook is not paused, each timer is a tick. *)
Lemma reachable_ticks width height (k : nat) (s : State) :
  reachable width height s -> paused s = false ->
  reachable width height (ticks k s) /\ paused (ticks k s) = false.
Proof.
  intros R P. induction k as [|k [IHr IHp]]; [split; assumption|].
  rewrite ticks_succ. split.
  - replace (tick (ticks k s)) with (timerEffect (ticks k s))
      by (unfold timerEffect; rewrite IHp; reflexivity).
    apply reachable_timer. assumption.
  - rewrite tick_paused. assumption.
Qed.

Lemma wellNumbered_NoDup l : wellNumbered l -> NoDup (map id l).
Proof.
  intros W. apply NoDup_alt. intros i j v Hi Hj.
  rewrite list_lookup_fmap in Hi, Hj.
  destruct (l !! i) as [a|] eqn:Ha; [|discriminate].
  destruct (l !! j) as [b|] eqn:Hb; [|discriminate].
  apply W in Ha, Hb. simpl in Hi, Hj. congruence.
Qed.

(** A node past the threshold gets no child in a tick. *)
Lemma tick_no_child_of_inert (s : State) i n j c :
  wellNumbered (nodes s) ->
  nodes s !! i = Some n -> (20 < age n)%Z ->
  nodes (tick s) !! j = Some c -> parent c = Some (id n) ->
  (j < length (nodes s))%nat.
Proof.
  intros W Hn Hage Hc Hp.
  destruct (Nat.lt_ge_cases j (length (nodes s))) as [Hlt|Hge];
    [assumption|exfalso].
  apply tick_lookup_new in Hc as [_ (k & m & Hm & Hpm & _ & Hm20)];
    [|assumption].
  rewrite Hpm in Hp. injection Hp as Hp.
  pose proof (W _ _ Hn) as E1. pose proof (W _ _ Hm) as E2.
  replace k with i in Hm by lia. rewrite Hn in Hm. injection Hm as <-. lia.
Qed.

Lemma ticks_inert (s : State) i n :
  wellNumbered (nodes s) ->
  nodes s !! i = Some n -> (20 < age n)%Z ->
  forall k,
    nodes (ticks k s) !! i = Some n
    /\ forall j c, nodes (ticks k s) !! j = Some c ->
         parent c = Some (id n) -> (j < length (nodes s))%nat.
Proof.
  intros W Hn Hage. induction k as [|k [IH1 IH2]].
  - split; [assumption|]. intros j c Hc _. eapply lookup_lt_Some; eassumption.
  - rewrite ticks_succ. set (s' := ticks k s) in *.
    assert (W' : wellNumbered (nodes s')) by (apply ticks_wellNumbered, W).
    split.
    + rewrite (tick_lookup_old s' i n IH1), settledNode_inert by assumption.
      reflexivity.
    + intros j c Hc Hp.
      pose proof (tick_no_child_of_inert s' i n j c W' IH1 Hage Hc Hp) as Hj.
      destruct (lookup_lt_is_Some_2 _ _ Hj) as [c0 Hc0].
      rewrite (tick_lookup_old s' j c0 Hc0) in Hc. injection Hc as <-.
      destruct (settledNode_frame (resources s') (nodes s') c0)
        as (_ & _ & Ep).
      rewrite Ep in Hp. eapply IH2; eassumption.
Qed.

End TickConsequences.

(** * Guards and draws *)

Lemma max0_nonneg v : is_nan v = false -> (0 <=? Math_max 0 v) = true.
Proof.
  intros Hv. unfold Math_max. simpl. rewrite Hv.
  destruct (0 <? v) eqn:E1; [now apply ltb_leb|].
  destruct (v <? 0); reflexivity.
Qed.

Lemma clamp_nan v : is_nan v = true -> is_nan (clamp v) = true.
Proof.
  intros H. unfold clamp, Math_min, Math_max. rewrite H. reflexivity.
Qed.

Lemma add_nan_r v : v + nan = nan.
Proof.
  apply Prim2SF_inj. rewrite add_spec.
  change (Prim2SF nan) with S754_nan.
  destruct (Prim2SF v); reflexivity.
Qed.

Lemma filter_delete_length {A} (f : A -> bool) (l : list A) : forall i,
  (length (List.filter f (delete i l)) <= length (List.filter f l))%nat.
Proof.
  induction l as [|a l IH]; intros [|i]; simpl; try lia.
  - destruct (f a); simpl; lia.
  - specialize (IH i). destruct (f a); simpl; lia.
Qed.

Lemma branchCondition_spec rs prevNodes node :
  branchCondition rs prevNodes node = true
  <-> (D_CRITICAL <? distortion node) = true
      /\ (0.3 <? calculateEnergy rs (position node)) = true
      /\ (5 < age node)%Z
      /\ (length (nearbyNodes prevNodes (position node)) < 3)%nat.
Proof.
  unfold branchCondition.
  rewrite !andb_true_iff, Z.ltb_lt, Nat.ltb_lt. tauto.
Qed.

Lemma growthFires_spec prevNodes node st :
  growthFires prevNodes node st = true
  <-> (0.2 <? coherence node) = true
      /\ (age node < 15)%Z
      /\ (activeNodeCount prevNodes < 50)%nat
      /\ (0.5 <? fst (Math_random (entropy st))) = true.
Proof.
  unfold growthFires, growthEligible.
  rewrite !andb_true_iff, Z.ltb_lt, Nat.ltb_lt. tauto.
Qed.

Lemma growthFires_low prevNodes node st :
  lowDraws (entropy st) -> growthFires prevNodes node st = false.
Proof.
  intros L. unfold growthFires. simpl. rewrite L. apply andb_false_r.
Qed.

(** One more element, or none. *)
Lemma snoc_or_same {A} (l : list A) (b : bool) (v : A) :
  (exists w, l ++ (if b then [v] else []) = l ++ [w]) <-> b = true.
Proof.
  split.
  - intros [w H]. destruct b; [reflexivity|].
    rewrite app_nil_r in H. apply (f_equal length) in H.
    rewrite length_app in H. simpl in H. lia.
  - intros ->. exists v. reflexivity.
Qed.

Section LowDraws.

Context {M : MathLib}.
Variable rs : list ResourcePoint.
Variable prevNodes : list PlantNode.

Lemma processNode_low st node index :
  lowDraws (entropy st) ->
  length (nodesToAdd (processNode rs prevNodes st node index))
  = (length (nodesToAdd st)
     + if branchFires rs prevNodes node then 1 else 0)%nat.
Proof.
  intros L. rewrite processNode_nodesToAdd, length_app. f_equal.
  unfold childrenOf, branchFires.
  destruct (20 <? age node)%Z; [reflexivity|]. simpl.
  rewrite growthFires_low.
  - destruct (branchCondition _ _ _); reflexivity.
  - intros k. rewrite branchBlock_draws. simpl. apply L.
Qed.

Lemma forEachFrom_low rest : forall index st,
  lowDraws (entropy st) ->
  length (nodesToAdd (forEachFrom rs prevNodes rest index st))
  = (length (nodesToAdd st)
     + length (List.filter (branchFires rs prevNodes) rest))%nat.
Proof.
  induction rest as [|node rest IH]; intros index st L; simpl; [lia|].
  rewrite IH.
  - rewrite processNode_low by assumption.
    destruct (branchFires rs prevNodes node); simpl; lia.
  - intros k. rewrite processNode_draws. apply L.
Qed.

End LowDraws.

Lemma tick_low {M : MathLib} (s : State) :
  lowDraws (random s) ->
  lowDraws (random (tick s))
  /\ length (nodes (tick s))
     = (length (nodes s)
        + length (List.filter (branchFires (resources s) (nodes s))
                    (nodes s)))%nat.
Proof.
  intros L. unfold tick, updateNodes. simpl.
  set (st0 := mkTickState (nodes s) [] (random s)).
  split.
  - intros k. rewrite forEachFrom_draws. apply L.
  - rewrite length_app.
    rewrite (forEachFrom_newNodes (resources s) (nodes s) (nodes s) [] st0)
      by reflexivity.
    rewrite length_map. f_equal.
    apply (forEachFrom_low (resources s) (nodes s) (nodes s) 0 st0). exact L.
Qed.

Lemma ticks_low {M : MathLib} (k : nat) (s : State) :
  lowDraws (random s) -> lowDraws (random (ticks k s)).
Proof.
  induction k as [|k IH]; intros L; [assumption|].
  rewrite ticks_succ. apply tick_low, IH, L.
Qed.

(** Supports leave the light bias as it is. *)
Lemma lightBias_supports (pos : Vector2D) (trellis : list ResourcePoint) :
  onlySupports trellis ->
  forall bias, fold_left (lightBiasStep pos) trellis bias = bias.
Proof.
  induction 1 as [|r trellis Hr _ IH]; intros bias; simpl; [reflexivity|].
  rewrite IH. unfold lightBiasStep. rewrite Hr. reflexivity.
Qed.

Lemma trellis_onlySupports (fuel : nat) : forall width height row,
  onlySupports (trellis fuel width height row).
Proof.
  induction fuel as [|fuel IH]; intros width height row; simpl;
    [constructor|].
  destruct (row <=? height * 0.8333); [|constructor].
  repeat (constructor; [reflexivity|]). apply IH.
Qed.

(** * The claims of the specification *)

(** The witnesses and examples below are evaluated with the reference
    library; the theorems bind their own. *)
#[local] Existing Instance RefMath.lib.

(** C2, at inputs where the code fails.  For a canvas of width 0 and
    height 62.5 the initialising effect creates the seed on the light
    (the trellis loop ends by its own test, after 16 rounds).  In the
    first tick the distance to the light is 0 and the light bias of the
    seed is 0/0, not a number, on both axes; the direction is NaN,
    [magnitude > 0] is false, and the child is placed straight up, at
    (0, 7.5).  The same holds of a node on the light of the 800 by 600
    canvas, whose child is placed at (700, 115). *)
Theorem light_bias_unprotected :
  (length (trellis 100 0 62.5 (62.5 * 0.333)) = 48%nat
   /\ position (seed 0 62.5) = mkVector2D 0 12.5
   /\ nth_error (resources Sample.narrow) 0
      = Some (mkResourcePoint (mkVector2D 0 12.5) 1.0 light)
   /\ lightBias (resources Sample.narrow) (position (seed 0 62.5))
      = (nan, nan)
   /\ growthDirection (resources Sample.narrow) (position (seed 0 62.5))
      = (nan, nan)
   /\ exists parentNode child,
        nodes (tick Sample.narrow) = [parentNode; child]
        /\ position child = mkVector2D 0 7.5)
  /\ (distanceBetween (position Sample.onLight) Sample.atLight = 0
      /\ lightBias Sample.resources (position Sample.onLight) = (nan, nan)
      /\ growthDirection Sample.resources (position Sample.onLight)
         = (nan, nan)
      /\ exists parentNode child,
           nodes (tick Sample.coincident) = [parentNode; child]
           /\ position child = mkVector2D 700 115).
Proof.
  split.
  - repeat split; try (vm_compute; reflexivity).
    eexists. eexists. split; vm_compute; reflexivity.
  - repeat split; try (vm_compute; reflexivity).
    eexists. eexists. split; vm_compute; reflexivity.
Qed.

(** Whatever supports the trellis loop pushes, the light bias of a node
    on the light of the fixed resources is not a number. *)
Lemma trellis_keeps_light_bias (fuel : nat) (width height : float) :
  lightBias (newResources fuel width height)
    (mkVector2D (width * 0.875) (height * 0.2))
  = lightBias (fixedResources width height)
      (mkVector2D (width * 0.875) (height * 0.2)).
Proof.
  unfold lightBias, newResources. rewrite fold_left_app.
  apply lightBias_supports, trellis_onlySupports.
Qed.

(** C3, as corrected.  For a node that is not skipped, the tick adds the
    increment dT to its temporalComplexity once, whether or not it grows;
    the node the growth block pushes starts from the temporalComplexity
    its parent had before the update plus dT, which is the value the
    parent ends the tick with. *)
Theorem temporal_increment_once {M : MathLib} (s : State) (i : nat)
    (n : PlantNode) (st : TickState) :
  nodes s !! i = Some n -> (age n <= 20)%Z ->
  (exists n', nodes (tick s) !! i = Some n'
     /\ temporalComplexity n'
        = temporalComplexity n + temporalChange (resources s) n)
  /\ (forall child,
        nodesToAdd (growthBlock (resources s) (nodes s) n st)
        = nodesToAdd st ++ [child] ->
        temporalComplexity child
        = temporalComplexity n + temporalChange (resources s) n).
Proof.
  intros Hn Hage. split.
  - exists (settledNode (resources s) (nodes s) n).
    split; [apply tick_lookup_old; assumption|].
    destruct (settledNode_cases (resources s) (nodes s) n Hage) as [->| ->];
      reflexivity.
  - intros child. rewrite growthBlock_nodesToAdd.
    destruct (growthFires (nodes s) n st).
    + intros H. apply app_inv_head in H. injection H as <-.
      unfold growthChild, growthNode.
      destruct (growthDirection _ _). reflexivity.
    + rewrite app_nil_r. intros H. apply (f_equal length) in H.
      rewrite length_app in H. simpl in H. lia.
Qed.

Lemma temporal_increment_once_witness :
  exists n', nodes (tick Sample.growing) !! 0%nat = Some n'
    /\ temporalComplexity n'
       = temporalComplexity Sample.shoot
         + temporalChange (resources Sample.growing)
             Sample.shoot.
Proof.
  apply (temporal_increment_once Sample.growing 0
           Sample.shoot
           (mkTickState (nodes Sample.growing) [] (random Sample.growing)));
    [reflexivity | vm_compute; discriminate].
Defined.

(** C3 as stated fails: a node 30 units below the light grows in the tick,
    its increment is not zero, and neither it nor its child ends the tick
    with the increment applied twice. *)
Lemma temporal_increment_not_twice :
  exists parentNode child,
    nodes (tick Sample.growing) = [parentNode; child]
    /\ parent child = Some (id Sample.shoot)
    /\ growthFires (nodes Sample.growing) Sample.shoot
         (mkTickState (nodes Sample.growing) [] (random Sample.growing))
       = true
    /\ (temporalChange (resources Sample.growing)
          Sample.shoot =? 0) = false
    /\ (temporalComplexity parentNode
        =? specTemporalAfterGrowth
             (resources Sample.growing) Sample.shoot)
       = false
    /\ (temporalComplexity child
        =? specTemporalAfterGrowth
             (resources Sample.growing) Sample.shoot)
       = false.
Proof.
  eexists. eexists. split; [vm_compute; reflexivity|].
  vm_compute. repeat split.
Qed.




Example family_paths :
  derivePaths RefMath.Number_toString Sample.family
  = [mkPath 0 "M400,550 L399,547.5 L401,547.5"].
Proof. vm_compute. reflexivity. Qed.

(** C5.  In a reachable state, a node whose age is at most 20 has its age
    increased by exactly 1 by the tick.  The round of a node whose age
    exceeds 20 returns at once, with nothing updated and nothing pushed:
    the node stays in the list, at its position and equal to itself in
    every field, after any number of ticks, and no node created by those
    ticks has it as parent. *)
Theorem age_advances_until_inert {M : MathLib} (width height : float)
    (s : State) (i : nat) (n : PlantNode) :
  reachable width height s -> nodes s !! i = Some n ->
  ((age n <= 20)%Z ->
     exists n', nodes (tick s) !! i = Some n' /\ age n' = (age n + 1)%Z)
  /\ ((20 < age n)%Z ->
        (forall st index,
           processNode (resources s) (nodes s) st n index = st)
        /\ forall k,
             nodes (ticks k s) !! i = Some n
             /\ forall j c, nodes (ticks k s) !! j = Some c ->
                  parent c = Some (id n) -> (j < length (nodes s))%nat).
Proof.
  intros R Hn. split.
  - intros Hage. exists (settledNode (resources s) (nodes s) n).
    split; [apply tick_lookup_old; assumption|].
    rewrite settledNode_age. apply Z.ltb_ge in Hage. rewrite Hage.
    reflexivity.
  - intros Hage. split.
    + intros st index. unfold processNode.
      apply Z.ltb_lt in Hage. rewrite Hage. reflexivity.
    + apply ticks_inert; try assumption.
      eapply reachable_wellNumbered; eassumption.
Qed.

Lemma age_advances_until_inert_witness :
  (exists n', nodes (tick Sample.dormant) !! 0%nat
              = Some n'
              /\ age n' = (age (seed 800 600) + 1)%Z)
  /\ ((forall st index,
         processNode (resources (ticks 21 Sample.dormant))
           (nodes (ticks 21 Sample.dormant)) st Sample.oldSeed index = st)
      /\ forall k,
        nodes (ticks k (ticks 21 Sample.dormant)) !! 0%nat
        = Some Sample.oldSeed
        /\ forall j c,
             nodes (ticks k (ticks 21 Sample.dormant)) !! j = Some c ->
             parent c = Some (id Sample.oldSeed) ->
             (j < length (nodes (ticks 21 Sample.dormant)))%nat).
Proof.
  split.
  - apply (age_advances_until_inert 800 600
             Sample.dormant 0 (seed 800 600)).
    + apply reachable_init.
    + reflexivity.
    + vm_compute. discriminate.
  - apply (age_advances_until_inert 800 600
             (ticks 21 Sample.dormant) 0 Sample.oldSeed).
    + apply reachable_ticks; [apply reachable_init | reflexivity].
    + vm_compute. reflexivity.
    + vm_compute. reflexivity.
Defined.

(** C6.  The growth block pushes a child of the node if and only if the
    node's coherence exceeds 0.2, its age is below 15, fewer than 50 nodes
    of the previous list have an age below 15, and the draw exceeds 0.5.
    With a source that returns the same value below 0.5 at every call the
    block pushes nothing, and every tick adds exactly one node per node
    whose branching block fires: the growth rule creates none. *)
Theorem growth_guard {M : MathLib} (s : State) (node : PlantNode)
    (st : TickState) (c : float) :
  ((exists child,
      nodesToAdd (growthBlock (resources s) (nodes s) node st)
      = nodesToAdd st ++ [child] /\ parent child = Some (id node))
   <-> (0.2 <? coherence node) = true
       /\ (age node < 15)%Z
       /\ (activeNodeCount (nodes s) < 50)%nat
       /\ (0.5 <? fst (Math_random (entropy st))) = true)
  /\ ((c <? 0.5) = true ->
      (forall k, draws (entropy st) k = c) ->
      nodesToAdd (growthBlock (resources s) (nodes s) node st)
      = nodesToAdd st)
  /\ ((c <? 0.5) = true ->
      (forall k, draws (random s) k = c) ->
      forall k,
        length (nodes (tick (ticks k s)))
        = (length (nodes (ticks k s))
           + length (List.filter
                       (branchFires (resources (ticks k s))
                          (nodes (ticks k s)))
                       (nodes (ticks k s))))%nat).
Proof.
  assert (Low : forall g, (c <? 0.5) = true ->
                  (forall k, draws g k = c) -> lowDraws g).
  { intros g Hc Hg k. rewrite Hg. apply ltb_asym. assumption. }
  split; [|split].
  - rewrite <- growthFires_spec, growthBlock_nodesToAdd. split.
    + intros (child & Hc & _). eapply snoc_or_same. exists child. exact Hc.
    + intros ->. eexists. split; [reflexivity|].
      unfold growthChild, growthNode.
      destruct (growthDirection _ _). reflexivity.
  - intros Hc Hg. rewrite growthBlock_nodesToAdd, growthFires_low.
    + apply app_nil_r.
    + apply Low; assumption.
  - intros Hc Hg k. apply tick_low, ticks_low, Low; assumption.
Qed.

Lemma growth_guard_witness :
  nodesToAdd
    (growthBlock (resources Sample.ripe)
       (nodes Sample.ripe) Sample.strained
       (mkTickState (nodes Sample.ripe) [] (random Sample.ripe)))
  = []
  /\ forall k,
       length (nodes (tick (ticks k Sample.ripe)))
       = (length (nodes (ticks k Sample.ripe))
          + length (List.filter
                      (branchFires (resources (ticks k Sample.ripe))
                         (nodes (ticks k Sample.ripe)))
                      (nodes (ticks k Sample.ripe))))%nat.
Proof.
  destruct (growth_guard Sample.ripe Sample.strained
              (mkTickState (nodes Sample.ripe) [] (random Sample.ripe)) 0.1)
    as (_ & H1 & H2).
  split.
  - apply H1; [vm_compute; reflexivity | intros k; reflexivity].
  - apply H2; [vm_compute; reflexivity | intros k; reflexivity].
Defined.

(** C7.  For every position, finite or not, and every resource set whose
    intensities are finite numbers, calculateEnergy and
    calculateSpatialComplexity each return a value within [0.1, 1.0]:
    every term added to the baseline is a finite number, so the
    accumulated sum is a number, possibly infinite, and the clamp brings
    it into the range. *)
Theorem fields_within_range (rs : list ResourcePoint) (pos : Vector2D) :
  finiteIntensities rs ->
  ((0.1 <=? calculateEnergy rs pos) = true
   /\ (calculateEnergy rs pos <=? 1.0) = true)
  /\ ((0.1 <=? calculateSpatialComplexity rs pos) = true
      /\ (calculateSpatialComplexity rs pos <=? 1.0) = true).
Proof.
  intros H. split.
  - apply (clamp_bounds (energySum rs pos)).
    apply (fold_number (energyStep pos)); try assumption.
    + intros acc r. apply energyStep_number.
    + reflexivity.
  - apply (clamp_bounds (complexitySum rs pos)).
    apply (fold_number (complexityStep pos)); try assumption.
    + intros acc r. apply complexityStep_number.
    + reflexivity.
Qed.

Lemma fields_within_range_witness :
  ((0.1 <=? calculateEnergy (newResources 100 800 600) Sample.belowLight)
   = true
   /\ (calculateEnergy (newResources 100 800 600) Sample.belowLight <=? 1.0)
      = true)
  /\ ((0.1 <=? calculateSpatialComplexity (newResources 100 800 600)
                 Sample.belowLight) = true
      /\ (calculateSpatialComplexity (newResources 100 800 600)
            Sample.belowLight <=? 1.0) = true).
Proof.
  apply (fields_within_range (newResources 100 800 600) Sample.belowLight).
  apply Forall_forall. intros r Hr. apply list_elem_of_In in Hr.
  vm_compute in Hr.
  repeat (destruct Hr as [<-|Hr]; [reflexivity|]). destruct Hr.
Defined.

(** The hypothesis on the intensities cannot be dropped: with a resource
    whose intensity is NaN in range, both functions return NaN. *)
Remark nan_intensity_propagates :
  is_nan (calculateEnergy [Sample.brokenLight] Sample.belowLight) = true
  /\ (0.1 <=? calculateEnergy [Sample.brokenLight] Sample.belowLight) = false
  /\ is_nan (calculateSpatialComplexity [Sample.brokenObstacle]
               Sample.belowLight) = true
  /\ (0.1 <=? calculateSpatialComplexity [Sample.brokenObstacle]
               Sample.belowLight) = false.
Proof.
  vm_compute. repeat split.
Qed.

(** C8.  For every node that the tick updates, whatever its coherence,
    distortion and position, the coherence it is left with is
    [Math.max(0, H + dH)], and that value is never below 0; it is at least
    0 whenever [H + dH] is a number. *)
Theorem coherence_never_negative {M : MathLib} (s : State) (i : nat)
    (n : PlantNode) :
  nodes s !! i = Some n -> (age n <= 20)%Z ->
  exists n', nodes (tick s) !! i = Some n'
    /\ coherence n'
       = Math_max 0 (coherence n + coherenceChange (resources s) n)
    /\ (coherence n' <? 0) = false
    /\ (is_nan (coherence n + coherenceChange (resources s) n) = false ->
        (0 <=? coherence n') = true).
Proof.
  intros Hi Hage. exists (settledNode (resources s) (nodes s) n).
  split; [apply tick_lookup_old; assumption|].
  assert (E : coherence (settledNode (resources s) (nodes s) n)
              = Math_max 0 (coherence n + coherenceChange (resources s) n)).
  { destruct (settledNode_cases (resources s) (nodes s) n Hage) as [->| ->];
      reflexivity. }
  rewrite E. split; [reflexivity|]. split; [apply max0_not_negative|].
  apply max0_nonneg.
Qed.

Lemma coherence_never_negative_witness :
  exists n', nodes (tick Sample.alone) !! 0%nat = Some n'
    /\ coherence n'
       = Math_max 0 (coherence Sample.rising
                     + coherenceChange (resources Sample.alone)
                         Sample.rising)
    /\ (coherence n' <? 0) = false
    /\ (is_nan (coherence Sample.rising
                + coherenceChange (resources Sample.alone) Sample.rising)
        = false ->
        (0 <=? coherence n') = true).
Proof.
  apply (coherence_never_negative Sample.alone 0
           Sample.rising); [reflexivity | vm_compute; discriminate].
Defined.

(** C9.  In every reachable state the ids are pairwise distinct and
    increase along the list; every node a tick appends gets an id above
    every id already there; and the tick keeps every node at its position
    in the list with its id, so that the list only grows at its end. *)
Theorem ids_unique_increasing {M : MathLib} (width height : float)
    (s : State) :
  reachable width height s ->
  NoDup (map id (nodes s))
  /\ (forall i j a b, nodes s !! i = Some a -> nodes s !! j = Some b ->
        (i < j)%nat -> (id a < id b)%nat)
  /\ (forall j c, nodes (tick s) !! j = Some c ->
        (length (nodes s) <= j)%nat ->
        forall i n, nodes s !! i = Some n -> (id n < id c)%nat)
  /\ (forall i n, nodes s !! i = Some n ->
        exists n', nodes (tick s) !! i = Some n' /\ id n' = id n)
  /\ (length (nodes s) <= length (nodes (tick s)))%nat.
Proof.
  intros R. pose proof (reachable_wellNumbered width height s R) as W.
  split; [apply wellNumbered_NoDup; assumption|].
  split.
  { intros i j a b Ha Hb Hlt. apply W in Ha, Hb. lia. }
  split.
  { intros j c Hc Hge i n Hn.
    pose proof (lookup_lt_Some _ _ _ Hn) as Hlt.
    apply W in Hn. apply tick_lookup_new in Hc as [Hid _]; [lia|assumption]. }
  split; [|apply tick_length].
  intros i n Hn. exists (settledNode (resources s) (nodes s) n).
  split; [apply tick_lookup_old; assumption|].
  apply settledNode_frame.
Qed.

Lemma ids_unique_increasing_witness :
  NoDup (map id (nodes (ticks 3 Sample.fresh)))
  /\ (length (nodes (ticks 3 Sample.fresh))
      <= length (nodes (tick (ticks 3 Sample.fresh))))%nat.
Proof.
  destruct (ids_unique_increasing 800 600
              (ticks 3 Sample.fresh)) as (H1 & _ & _ & _ & H2).
  - apply reachable_ticks; [apply reachable_init | reflexivity].
  - split; assumption.
Defined.

(** C10.  A tick removes no node: every node of the previous list is
    still at its position in the new list, with the id, the position and
    the parent it had; it is the node itself, or its base update, or its
    base update with the distortion reset to 0.5.  The tick leaves the
    resources as they were. *)
Theorem tick_frame {M : MathLib} (s : State) (i : nat) (n : PlantNode) :
  nodes s !! i = Some n ->
  exists n', nodes (tick s) !! i = Some n'
    /\ id n' = id n /\ position n' = position n /\ parent n' = parent n
    /\ (n' = n \/ n' = baseUpdate (resources s) n
        \/ n' = withDistortion (baseUpdate (resources s) n) 0.5)
    /\ (length (nodes s) <= length (nodes (tick s)))%nat
    /\ resources (tick s) = resources s.
Proof.
  intros Hi. exists (settledNode (resources s) (nodes s) n).
  split; [apply tick_lookup_old; assumption|].
  destruct (settledNode_frame (resources s) (nodes s) n) as (Ei & Ep & Ea).
  split; [assumption|]. split; [assumption|]. split; [assumption|].
  split; [|split; [apply tick_length|apply tick_resources]].
  destruct (Z.lt_ge_cases 20 (age n)) as [H|H].
  - left. apply settledNode_inert. assumption.
  - right. apply settledNode_cases. assumption.
Qed.

Lemma tick_frame_witness :
  exists n', nodes (tick Sample.ripe) !! 0%nat = Some n'
    /\ id n' = id Sample.strained
    /\ position n' = position Sample.strained
    /\ parent n' = parent Sample.strained
    /\ (n' = Sample.strained
        \/ n' = baseUpdate (resources Sample.ripe) Sample.strained
        \/ n' = withDistortion
                  (baseUpdate (resources Sample.ripe) Sample.strained) 0.5)
    /\ (length (nodes Sample.ripe) <= length (nodes (tick Sample.ripe)))%nat
    /\ resources (tick Sample.ripe) = resources Sample.ripe.
Proof.
  apply (tick_frame Sample.ripe 0 Sample.strained).
  reflexivity.
Defined.

(** * Further properties of the code *)

(** ** The field functions *)

Lemma energySum_dark pos (rs : list ResourcePoint) :
  darkAt rs pos -> forall acc, fold_left (energyStep pos) rs acc = acc.
Proof.
  induction 1 as [|r rs Hr _ IH]; intros acc; simpl; [reflexivity|].
  rewrite IH. unfold energyStep.
  destruct (rtype r); try reflexivity. rewrite Hr; reflexivity.
Qed.

Lemma complexitySum_clear pos (rs : list ResourcePoint) :
  clearAt rs pos -> forall acc, fold_left (complexityStep pos) rs acc = acc.
Proof.
  induction 1 as [|r rs Hr _ IH]; intros acc; simpl; [reflexivity|].
  rewrite IH. unfold complexityStep.
  destruct (rtype r) eqn:T.
  - destruct (_ <? 100); reflexivity.
  - rewrite Hr by discriminate. reflexivity.
  - rewrite Hr by discriminate. reflexivity.
Qed.

Lemma complexity_clear (rs : list ResourcePoint) (pos : Vector2D) :
  clearAt rs pos -> calculateSpatialComplexity rs pos = 0.5.
Proof.
  intros H. unfold calculateSpatialComplexity, complexitySum.
  rewrite complexitySum_clear by assumption. reflexivity.
Qed.

(** X1.  Where no light is within the sensing distance of 200, whatever
    else the resources hold, calculateEnergy returns the ambient energy
    0.2 exactly. *)
Theorem energy_without_light_in_range (rs : list ResourcePoint)
    (pos : Vector2D) :
  darkAt rs pos -> calculateEnergy rs pos = 0.2.
Proof.
  intros H. unfold calculateEnergy, energySum.
  rewrite energySum_dark by assumption. reflexivity.
Qed.

Lemma energy_without_light_in_range_witness :
  calculateEnergy Sample.resources (mkVector2D 400 550) = 0.2.
Proof.
  apply energy_without_light_in_range.
  repeat (constructor;
          [intros H; try discriminate H; vm_compute; reflexivity|]).
  constructor.
Defined.

(** X2.  Where no support and no obstacle is within 100 units,
    calculateSpatialComplexity returns the base complexity 0.5 exactly;
    where that holds of the position and of the two positions 5 units
    further along each axis, the gradient is zero on both axes. *)
Theorem complexity_without_structure_in_range (rs : list ResourcePoint)
    (pos : Vector2D) :
  clearAt rs pos ->
  calculateSpatialComplexity rs pos = 0.5
  /\ (clearAt rs (mkVector2D (x pos + 5) (y pos)) ->
      clearAt rs (mkVector2D (x pos) (y pos + 5)) ->
      calculateSpatialGradient rs pos = mkVector2D 0 0).
Proof.
  intros H. split; [apply complexity_clear, H|].
  intros Hx Hy. unfold calculateSpatialGradient.
  rewrite (complexity_clear _ _ H), (complexity_clear _ _ Hx),
    (complexity_clear _ _ Hy). reflexivity.
Qed.

Lemma complexity_without_structure_in_range_witness :
  calculateSpatialComplexity Sample.resources Sample.belowLight = 0.5
  /\ calculateSpatialGradient Sample.resources Sample.belowLight
     = mkVector2D 0 0.
Proof.
  assert (C : forall p,
            p = Sample.belowLight \/ p = mkVector2D 705 150
            \/ p = mkVector2D 700 155 ->
            clearAt Sample.resources p).
  { intros p [-> | [-> | ->]];
      repeat (constructor;
              [intros H; try (exfalso; apply H; reflexivity);
               vm_compute; reflexivity|]);
      constructor. }
  destruct (complexity_without_structure_in_range Sample.resources
              Sample.belowLight) as [H1 H2].
  - apply C. auto.
  - split; [exact H1|]. apply H2; apply C; auto.
Defined.

Lemma energySum_lights pos (rs : list ResourcePoint) : forall acc,
  fold_left (energyStep pos) rs acc
  = fold_left (energyStep pos) (List.filter isLight rs) acc.
Proof.
  induction rs as [|r rs IH]; intros acc; simpl; [reflexivity|].
  unfold isLight at 1. destruct (rtype r) eqn:T; simpl; rewrite IH;
    try reflexivity; unfold energyStep at 2; rewrite T; reflexivity.
Qed.

Lemma complexitySum_structures pos (rs : list ResourcePoint) : forall acc,
  fold_left (complexityStep pos) rs acc
  = fold_left (complexityStep pos)
      (List.filter (fun r => negb (isLight r)) rs) acc.
Proof.
  induction rs as [|r rs IH]; intros acc; simpl; [reflexivity|].
  unfold isLight at 1. destruct (rtype r) eqn:T; simpl; rewrite IH;
    try reflexivity.
  unfold complexityStep at 2. rewrite T.
  destruct (_ <? 100); reflexivity.
Qed.

(** X3.  calculateEnergy reads the lights only, and
    calculateSpatialComplexity and calculateSpatialGradient read the
    supports and obstacles only: removing the other resources from the
    list changes none of the three results. *)
Theorem fields_by_kind (rs : list ResourcePoint) (pos : Vector2D) :
  calculateEnergy rs pos = calculateEnergy (List.filter isLight rs) pos
  /\ calculateSpatialComplexity rs pos
     = calculateSpatialComplexity
         (List.filter (fun r => negb (isLight r)) rs) pos
  /\ calculateSpatialGradient rs pos
     = calculateSpatialGradient
         (List.filter (fun r => negb (isLight r)) rs) pos.
Proof.
  assert (C : forall p, calculateSpatialComplexity rs p
              = calculateSpatialComplexity
                  (List.filter (fun r => negb (isLight r)) rs) p).
  { intros p. unfold calculateSpatialComplexity, complexitySum.
    rewrite complexitySum_structures. reflexivity. }
  split; [|split].
  - unfold calculateEnergy, energySum. rewrite energySum_lights.
    reflexivity.
  - apply C.
  - unfold calculateSpatialGradient. rewrite !C. reflexivity.
Qed.

(** ** Coincident positions *)

Lemma is_finite_spec (v : float) :
  is_finite v = true ->
  (exists s, Prim2SF v = S754_zero s)
  \/ (exists s m e, Prim2SF v = S754_finite s m e).
Proof.
  unfold is_finite, is_infinity. intros H.
  apply negb_true_iff, orb_false_iff in H as [Hn Hi].
  apply is_nan_spec in Hn.
  rewrite FloatAxioms.eqb_spec, abs_spec in Hi.
  destruct (Prim2SF v) as [s|s| |s m e]; eauto.
  - destruct s; discriminate Hi.
  - congruence.
Qed.

(** A finite number minus itself is +0. *)
Lemma sub_diag (v : float) : is_finite v = true -> v - v = 0.
Proof.
  intros H. apply Prim2SF_inj. rewrite sub_spec.
  change (Prim2SF 0) with (S754_zero false).
  destruct (is_finite_spec v H) as [[s ->]|(s & m & e & ->)].
  - destruct s; reflexivity.
  - unfold SF64sub, SFsub. rewrite Z.min_id.
    unfold shl_align. rewrite Z.sub_diag. simpl fst.
    reflexivity.
Qed.

Lemma add_nan_l v : nan + v = nan.
Proof.
  apply Prim2SF_inj. rewrite add_spec.
  change (Prim2SF nan) with S754_nan. reflexivity.
Qed.

Lemma mul_nan_l v : nan * v = nan.
Proof.
  apply Prim2SF_inj. rewrite mul_spec.
  change (Prim2SF nan) with S754_nan. reflexivity.
Qed.

Lemma distance_to_self (pos : Vector2D) :
  finiteVector pos = true -> distanceBetween pos pos = 0.
Proof.
  intros H. apply andb_true_iff in H as [Hx Hy].
  unfold distanceBetween. rewrite (sub_diag _ Hx), (sub_diag _ Hy).
  reflexivity.
Qed.

Lemma filter_delete_in {A} (f : A -> bool) (l : list A) : forall i a,
  l !! i = Some a -> f a = true ->
  length (List.filter f l) = S (length (List.filter f (delete i l))).
Proof.
  induction l as [|b l IH]; intros [|i] a Hi Ha; simpl in *; try discriminate.
  - injection Hi as ->. rewrite Ha. reflexivity.
  - destruct (f b); simpl; rewrite (IH i a Hi Ha); reflexivity.
Qed.

(** X4.  A node of the list whose coordinates are finite is at distance 0
    from itself, so [nearbyNodes] always counts it: the count is one more
    than the number of other nodes within 20 units, and a node that
    branches has at most one other node within 20 units. *)
Theorem crowding_counts_self (rs : list ResourcePoint)
    (prevNodes : list PlantNode) (index : nat) (node : PlantNode) :
  prevNodes !! index = Some node -> finiteVector (position node) = true ->
  distanceBetween (position node) (position node) = 0
  /\ length (nearbyNodes prevNodes (position node))
     = S (length (nearbyOthers prevNodes index (position node)))
  /\ (branchCondition rs prevNodes node = true ->
      (length (nearbyOthers prevNodes index (position node)) < 2)%nat).
Proof.
  intros Hi Hf.
  assert (E : length (nearbyNodes prevNodes (position node))
              = S (length (nearbyOthers prevNodes index (position node)))).
  { unfold nearbyNodes, nearbyOthers. apply (filter_delete_in _ _ _ node Hi).
    rewrite distance_to_self by assumption. reflexivity. }
  split; [apply distance_to_self, Hf|].
  split; [exact E|]. intros B. apply branchCondition_spec in B. lia.
Qed.

Lemma crowding_counts_self_witness :
  length (nearbyNodes (nodes Sample.crowded) (position Sample.strained))
  = S (length (nearbyOthers (nodes Sample.crowded) 0
                 (position Sample.strained))).
Proof.
  apply (crowding_counts_self Sample.resources (nodes Sample.crowded) 0
           Sample.strained); reflexivity.
Defined.

Lemma lightBiasStep_nan pos r : lightBiasStep pos (nan, nan) r = (nan, nan).
Proof.
  unfold lightBiasStep. destruct (rtype r); try reflexivity.
  destruct (_ <? MAX_ENERGY_DISTANCE); [|reflexivity].
  simpl. rewrite !add_nan_l. reflexivity.
Qed.

Lemma lightBias_nan_stays pos rs :
  fold_left (lightBiasStep pos) rs (nan, nan) = (nan, nan).
Proof.
  induction rs as [|r rs IH]; simpl; [reflexivity|].
  rewrite lightBiasStep_nan. apply IH.
Qed.

Lemma lightBiasStep_on_light pos bias r :
  finiteVector pos = true -> rtype r = light -> rposition r = pos ->
  lightBiasStep pos bias r = (nan, nan).
Proof.
  intros Hf Ht Hp. apply andb_true_iff in Hf as [Hx Hy].
  unfold lightBiasStep. rewrite Ht, Hp.
  rewrite (sub_diag _ Hx), (sub_diag _ Hy).
  change (Math_sqrt (0 * 0 + 0 * 0)) with 0.
  change (0 <? MAX_ENERGY_DISTANCE) with true. cbv iota.
  change (0 / 0) with nan. rewrite mul_nan_l, !add_nan_r. reflexivity.
Qed.

Lemma lightBias_on_light pos rs r :
  finiteVector pos = true -> In r rs -> rtype r = light ->
  rposition r = pos -> lightBias rs pos = (nan, nan).
Proof.
  intros Hf Hin Ht Hp. unfold lightBias.
  apply in_split in Hin as (l1 & l2 & ->).
  rewrite fold_left_app. simpl.
  rewrite (lightBiasStep_on_light pos _ r Hf Ht Hp).
  apply lightBias_nan_stays.
Qed.

(** X5.  For a node at a finite position that is the position of a light
    of the resources, whatever the intensities and the other resources
    are, the light bias and the growth direction are NaN on both axes, and
    the growth node is placed straight up from the node, at the growth
    distance: the [magnitude > 0] test is false and the default direction
    (0, -1) is taken. *)
Theorem growth_on_light {M : MathLib} (rs : list ResourcePoint)
    (r : ResourcePoint) (node : PlantNode) (newId : nat) :
  finiteVector (position node) = true -> In r rs -> rtype r = light ->
  rposition r = position node ->
  lightBias rs (position node) = (nan, nan)
  /\ growthDirection rs (position node) = (nan, nan)
  /\ position (growthNode rs node newId)
     = mkVector2D
         (x (position node)
          + 0 * (GROWTH_RATE
                 * (0.5 + 0.5 * calculateEnergy rs (position node))))
         (y (position node)
          + -1 * (GROWTH_RATE
                  * (0.5 + 0.5 * calculateEnergy rs (position node)))).
Proof.
  intros Hf Hin Ht Hp.
  pose proof (lightBias_on_light _ _ _ Hf Hin Ht Hp) as L.
  assert (D : growthDirection rs (position node) = (nan, nan)).
  { unfold growthDirection. rewrite L. simpl.
    change (nan * 2) with nan. rewrite mul_nan_l, !add_nan_r. reflexivity. }
  split; [exact L|]. split; [exact D|].
  unfold growthNode. rewrite D. reflexivity.
Qed.

Lemma growth_on_light_witness :
  lightBias Sample.resources (position Sample.onLight) = (nan, nan)
  /\ position (growthNode Sample.resources Sample.onLight 1)
     = mkVector2D 700 115.
Proof.
  destruct (growth_on_light Sample.resources
              (mkResourcePoint Sample.atLight 1.0 light) Sample.onLight 1)
    as (H1 & _ & H3).
  - reflexivity.
  - left. reflexivity.
  - reflexivity.
  - reflexivity.
  - split; [exact H1|]. rewrite H3. vm_compute. reflexivity.
Defined.

(** ** What a tick appends *)

Section PushedFacts.

Context {M : MathLib}.
Variable rs : list ResourcePoint.
Variable prevNodes : list PlantNode.

Lemma childrenOf_pushedBy node index st c :
  In c (childrenOf rs prevNodes node index st) ->
  pushedBy rs prevNodes node c.
Proof.
  unfold childrenOf, pushedBy.
  destruct (20 <? age node)%Z eqn:A; [intros []|]. apply Z.ltb_ge in A.
  intros H. split; [assumption|].
  apply in_app_or in H as [H|H].
  - destruct (branchCondition rs prevNodes node); [|destruct H].
    destruct H as [<-|[]]. left. split; [reflexivity|].
    unfold branchChild. eauto.
  - unfold growthFires in H.
    destruct (growthEligible prevNodes node); [|destruct H].
    simpl in H. destruct (0.5 <? _); [|destruct H].
    destruct H as [<-|[]]. right. split; [reflexivity|].
    unfold growthChild. eauto.
Qed.

Lemma childrenOf_length node index st :
  (length (childrenOf rs prevNodes node index st)
   <= if (20 <? age node)%Z then 0 else 2)%nat.
Proof.
  unfold childrenOf. destruct (20 <? age node)%Z; [simpl; lia|].
  rewrite length_app.
  destruct (branchCondition _ _ _), (growthFires _ _ _); simpl; lia.
Qed.

Lemma forEachFrom_pushedBy rest : forall index st,
  exists extra,
    nodesToAdd (forEachFrom rs prevNodes rest index st)
    = nodesToAdd st ++ extra
    /\ (forall c, In c extra ->
          exists node, In node rest /\ pushedBy rs prevNodes node c)
    /\ (length extra
        <= 2 * length (List.filter (fun n => negb (20 <? age n)%Z) rest))%nat.
Proof.
  induction rest as [|node rest IH]; intros index st; simpl.
  - exists []. split; [symmetry; apply app_nil_r|].
    split; [intros c []|simpl; lia].
  - destruct (IH (S index) (processNode rs prevNodes st node index))
      as (extra & E & P & L).
    rewrite processNode_nodesToAdd in E.
    exists (childrenOf rs prevNodes node index st ++ extra). split.
    + rewrite E, app_assoc. reflexivity.
    + split.
      * intros c Hc. apply in_app_or in Hc as [Hc|Hc].
        -- exists node. split; [left; reflexivity|].
           eapply childrenOf_pushedBy; eassumption.
        -- destruct (P c Hc) as (m & Hm & Hp). exists m.
           split; [right; assumption|assumption].
      * rewrite length_app.
        pose proof (childrenOf_length node index st) as Hl.
        destruct (20 <? age node)%Z; simpl in *; lia.
Qed.

Lemma forEachFrom_children rest : forall index st c,
  In c (nodesToAdd (forEachFrom rs prevNodes rest index st)) ->
  In c (nodesToAdd st)
  \/ exists j node, rest !! j = Some node
       /\ In c (childrenOf rs prevNodes node (index + j)
                  (forEachFrom rs prevNodes (take j rest) index st)).
Proof.
  induction rest as [|node rest IH]; intros index st c H; simpl in H.
  - left. assumption.
  - apply IH in H as [H|(j & n & Hj & Hc)].
    + rewrite processNode_nodesToAdd in H. apply in_app_or in H as [H|H].
      * left. assumption.
      * right. exists 0%nat, node. split; [reflexivity|].
        rewrite Nat.add_0_r. exact H.
    + right. exists (S j), n. split; [exact Hj|].
      replace (index + S j)%nat with (S index + j)%nat by lia. exact Hc.
Qed.

Lemma pushedBy_fields m c :
  pushedBy rs prevNodes m c ->
  age c = 0%Z /\ parent c = Some (id m)
  /\ energy c = calculateEnergy rs (position m)
  /\ spatialComplexity c = calculateSpatialComplexity rs (position m)
  /\ ((coherence c = 1.0 /\ distortion c = 0.0
       /\ temporalComplexity c = temporalComplexity m)
      \/ (coherence c = coherence m /\ distortion c = distortion m
          /\ temporalComplexity c
             = temporalComplexity m + temporalChange rs m)).
Proof.
  intros (_ & [(_ & draw & k & ->)|(_ & k & ->)]).
  - repeat split; try reflexivity. left. repeat split.
  - unfold growthNode. destruct (growthDirection _ _).
    repeat split; try reflexivity. right. repeat split.
Qed.

Lemma growthEligible_capped node :
  (50 <= activeNodeCount prevNodes)%nat ->
  growthEligible prevNodes node = false.
Proof.
  intros H. unfold growthEligible.
  apply Nat.ltb_ge in H. rewrite H. apply andb_false_r.
Qed.

Lemma forEachFrom_capped rest : forall index st,
  (50 <= activeNodeCount prevNodes)%nat ->
  length (nodesToAdd (forEachFrom rs prevNodes rest index st))
  = (length (nodesToAdd st)
     + length (List.filter (branchFires rs prevNodes) rest))%nat.
Proof.
  intros index st H. revert index st.
  induction rest as [|node rest IH]; intros index st; simpl; [lia|].
  rewrite IH, processNode_nodesToAdd, length_app.
  unfold childrenOf, branchFires, growthFires.
  rewrite growthEligible_capped by assumption.
  destruct (20 <? age node)%Z; simpl; [lia|].
  destruct (branchCondition _ _ _); simpl; lia.
Qed.

Lemma branchBlock_cursor node index st :
  cursor (entropy (branchBlock rs prevNodes node index st))
  = (cursor (entropy st)
     + if branchCondition rs prevNodes node then 1 else 0)%nat.
Proof.
  unfold branchBlock. destruct (branchCondition _ _ _); [|lia].
  simpl. destruct (newNodes st !! index); simpl; lia.
Qed.

Lemma growthBlock_cursor node st :
  cursor (entropy (growthBlock rs prevNodes node st))
  = (cursor (entropy st)
     + if growthEligible prevNodes node then 1 else 0)%nat.
Proof.
  unfold growthBlock. destruct (growthEligible _ _); [|lia].
  simpl. destruct (0.5 <? _); simpl; lia.
Qed.

Lemma processNode_cursor st node index :
  cursor (entropy (processNode rs prevNodes st node index))
  = (cursor (entropy st)
     + (if branchFires rs prevNodes node then 1 else 0)
     + (if drawsForGrowth prevNodes node then 1 else 0))%nat.
Proof.
  unfold processNode, branchFires, drawsForGrowth.
  destruct (20 <? age node)%Z; simpl; [lia|].
  rewrite growthBlock_cursor, branchBlock_cursor. simpl. lia.
Qed.

Lemma forEachFrom_cursor rest : forall index st,
  cursor (entropy (forEachFrom rs prevNodes rest index st))
  = (cursor (entropy st)
     + length (List.filter (branchFires rs prevNodes) rest)
     + length (List.filter (drawsForGrowth prevNodes) rest))%nat.
Proof.
  induction rest as [|node rest IH]; intros index st; simpl; [lia|].
  rewrite IH, processNode_cursor.
  destruct (branchFires _ _ _), (drawsForGrowth _ _); simpl; lia.
Qed.

Lemma forEachFrom_inert rest : forall index st,
  Forall (fun n => (20 < age n)%Z) rest ->
  forEachFrom rs prevNodes rest index st = st.
Proof.
  induction rest as [|n rest IH]; intros index st H; simpl; [reflexivity|].
  inversion H as [|? ? Hn Hr]; subst.
  unfold processNode at 1. apply Z.ltb_lt in Hn. rewrite Hn.
  apply IH. assumption.
Qed.

End PushedFacts.

Section TickExtras.

Context {M : MathLib}.

Lemma tick_appended (s : State) :
  exists extra,
    nodes (tick s)
    = map (settledNode (resources s) (nodes s)) (nodes s) ++ extra
    /\ (forall c, In c extra ->
          exists m, In m (nodes s)
                    /\ pushedBy (resources s) (nodes s) m c)
    /\ (length extra
        <= 2 * length (List.filter (fun n => negb (20 <? age n)%Z)
                         (nodes s)))%nat.
Proof.
  rewrite tick_nodes. unfold updateNodes. simpl.
  set (st0 := mkTickState (nodes s) [] (random s)).
  destruct (forEachFrom_pushedBy (resources s) (nodes s) (nodes s) 0 st0)
    as (extra & E & P & L).
  exists extra. split; [|split; assumption].
  rewrite E. simpl. f_equal.
  apply (forEachFrom_newNodes (resources s) (nodes s) (nodes s) [] st0).
  reflexivity.
Qed.

(** X6.  Every node a tick appends was pushed in the round of a node of
    the previous list whose age was at most 20, its parent; it starts at
    age 0 with the energy and the spatial complexity sampled at the
    parent's position.  It is either the branch of a parent that met the
    branching guard (coherence 1, distortion 0, the parent's temporal
    complexity unchanged), or the growth of a parent that met the whole
    growth guard in its round: coherence above 0.2, age below 15, fewer
    than 50 active nodes, and the draw [Math.random] returned at the
    growth block of that round above 0.5 (the parent's coherence and
    distortion from before the update, its temporal complexity plus
    dT). *)
Theorem appended_nodes (s : State) (j : nat) (c : PlantNode) :
  nodes (tick s) !! j = Some c -> (length (nodes s) <= j)%nat ->
  exists i m, nodes s !! i = Some m /\ (age m <= 20)%Z
    /\ age c = 0%Z /\ parent c = Some (id m)
    /\ energy c = calculateEnergy (resources s) (position m)
    /\ spatialComplexity c
       = calculateSpatialComplexity (resources s) (position m)
    /\ ((branchCondition (resources s) (nodes s) m = true
         /\ coherence c = 1.0 /\ distortion c = 0.0
         /\ temporalComplexity c = temporalComplexity m)
        \/ (((0.2 <? coherence m) = true
             /\ (age m < 15)%Z
             /\ (activeNodeCount (nodes s) < 50)%nat
             /\ (0.5 <? fst (Math_random (entropy (atGrowthBlock s i m))))
                = true)
            /\ coherence c = coherence m /\ distortion c = distortion m
            /\ temporalComplexity c
               = temporalComplexity m + temporalChange (resources s) m)).
Proof.
  intros Hc Hge.
  set (st0 := mkTickState (nodes s) [] (random s)).
  assert (Hin : In c (nodesToAdd (forEachFrom (resources s) (nodes s)
                                    (nodes s) 0 st0))).
  { rewrite tick_nodes in Hc. unfold updateNodes in Hc. simpl in Hc.
    fold st0 in Hc.
    rewrite (forEachFrom_newNodes (resources s) (nodes s) (nodes s) [] st0)
      in Hc by reflexivity.
    simpl in Hc.
    rewrite lookup_app_r in Hc by (rewrite length_map; lia).
    apply list_elem_of_lookup_2, list_elem_of_In in Hc. exact Hc. }
  apply forEachFrom_children in Hin as [[]|(i & m & Hm & Hin)].
  exists i, m. split; [exact Hm|].
  unfold childrenOf in Hin. simpl (0 + i)%nat in Hin.
  destruct (20 <? age m)%Z eqn:A; [destruct Hin|]. apply Z.ltb_ge in A.
  split; [exact A|].
  fold st0 in Hin.
  apply in_app_or in Hin as [Hin|Hin].
  - destruct (branchCondition (resources s) (nodes s) m) eqn:B;
      [|destruct Hin].
    destruct Hin as [<-|[]].
    repeat split; try reflexivity. left. repeat split.
  - change (branchBlock (resources s) (nodes s) m i
              (setNewNode i (baseUpdate (resources s) m)
                 (forEachFrom (resources s) (nodes s) (take i (nodes s)) 0
                    st0)))
      with (atGrowthBlock s i m) in Hin.
    destruct (growthFires (nodes s) m (atGrowthBlock s i m)) eqn:G;
      [|destruct Hin].
    destruct Hin as [<-|[]]. apply growthFires_spec in G.
    unfold growthChild, growthNode. destruct (growthDirection _ _).
    repeat split; try reflexivity. right. split; [exact G|]. repeat split.
Qed.

(** X7.  A tick never shortens the node list and appends at most two
    nodes, a branch and a growth, for each node whose age is at most 20;
    nodes past that age add nothing. *)
Theorem tick_growth_bound (s : State) :
  (length (nodes s) <= length (nodes (tick s)))%nat
  /\ (length (nodes (tick s))
      <= length (nodes s)
         + 2 * length (List.filter (fun n => negb (20 <? age n)%Z)
                         (nodes s)))%nat.
Proof.
  destruct (tick_appended s) as (extra & E & _ & L).
  rewrite E, length_app, length_map. lia.
Qed.

Lemma tick_Forall (P : PlantNode -> Prop) (s : State) :
  (forall n, P n -> P (settledNode (resources s) (nodes s) n)) ->
  (forall m c, P m -> pushedBy (resources s) (nodes s) m c -> P c) ->
  Forall P (nodes s) -> Forall P (nodes (tick s)).
Proof.
  intros Hs Hc H. destruct (tick_appended s) as (extra & E & Q & _).
  rewrite E. apply Forall_app. split.
  - apply Forall_fmap. eapply Forall_impl; [exact H|]. exact Hs.
  - apply Forall_forall. intros c Hin. apply list_elem_of_In in Hin.
    destruct (Q c Hin) as (m & Hm & Hp).
    apply (Hc m c); [|assumption].
    rewrite Forall_forall in H. apply H, list_elem_of_In, Hm.
Qed.

Lemma reachable_ind_nodes (P : list PlantNode -> Prop) width height :
  P [] -> P [seed width height] ->
  (forall s, P (nodes s) -> P (nodes (tick s))) ->
  forall s, reachable width height s -> P (nodes s).
Proof.
  intros Hm H0 Ht s R. induction R as [g|newResources g|s _ IH|s b _ IH].
  - exact Hm.
  - exact H0.
  - unfold timerEffect. destruct (paused s); [assumption|]. apply Ht, IH.
  - exact IH.
Qed.

Lemma tick_agesBounded (s : State) :
  agesBounded (nodes s) -> agesBounded (nodes (tick s)).
Proof.
  apply tick_Forall.
  - intros n Hn. rewrite settledNode_age.
    destruct (20 <? age n)%Z eqn:A; [assumption|].
    apply Z.ltb_ge in A. lia.
  - intros m c _ Hp. apply pushedBy_fields in Hp as (-> & _). lia.
Qed.

Lemma tick_coherencesNotNegative (s : State) :
  coherencesNotNegative (nodes s) ->
  coherencesNotNegative (nodes (tick s)).
Proof.
  apply tick_Forall.
  - intros n Hn. unfold settledNode, updatedNode.
    destruct (20 <? age n)%Z; [assumption|].
    destruct (branchCondition _ _ _); apply max0_not_negative.
  - intros m c Hm Hp.
    apply pushedBy_fields in Hp as (_ & _ & _ & _ & [(-> & _)|(-> & _)]);
      [reflexivity|assumption].
Qed.

Lemma tick_forest width height (s : State) :
  wellNumbered (nodes s) -> forest width height (nodes s) ->
  forest width height (nodes (tick s)).
Proof.
  intros W F i n Hn.
  destruct (Nat.lt_ge_cases i (length (nodes s))) as [Hlt|Hge].
  - destruct (lookup_lt_is_Some_2 _ _ Hlt) as [m Hm].
    rewrite (tick_lookup_old s i m Hm) in Hn. injection Hn as <-.
    destruct (settledNode_frame (resources s) (nodes s) m) as (Ei & Ep & Ea).
    specialize (F i m Hm). destruct i.
    + unfold seedLike in *. rewrite Ei, Ep, Ea. exact F.
    + rewrite Ea. exact F.
  - apply tick_lookup_new in Hn as [_ (k & m & Hm & Hp & _)]; [|assumption].
    pose proof (lookup_lt_Some _ _ _ Hm) as Hk.
    pose proof (W _ _ Hm) as Hid.
    destruct i.
    + lia.
    + exists (id m). split; [assumption|lia].
Qed.

Lemma reachable_numbered_forest width height (s : State) :
  reachable width height s ->
  wellNumbered (nodes s) /\ forest width height (nodes s).
Proof.
  revert s.
  apply (reachable_ind_nodes
           (fun l => wellNumbered l /\ forest width height l)).
  - split; intros i n H; destruct i; discriminate H.
  - split.
    + intros [|i] n H; simpl in H; [|discriminate]. injection H as <-.
      reflexivity.
    + intros [|i] n H; simpl in H; [|discriminate]. injection H as <-.
      repeat split.
  - intros s (W & F).
    split; [apply tick_wellNumbered, W|apply tick_forest; assumption].
Qed.

Lemma reachable_unmounted width height (s : State) :
  reachable width height s -> nodes s = [] -> resources s = [].
Proof.
  induction 1 as [g|newResources g|s _ IH|s b _ IH]; intros E.
  - reflexivity.
  - discriminate E.
  - unfold timerEffect in *. destruct (paused s); [auto|].
    rewrite tick_resources. apply IH.
    pose proof (tick_length s) as L. rewrite E in L.
    destruct (nodes s); [reflexivity|simpl in L; lia].
  - apply IH. exact E.
Qed.

(** X8.  In every reachable state the node list is empty only as long as
    the initialising effect has not run, and then the resources are empty
    too; once it holds a node, its first node is the seed (id 0, no
    parent, at (width/2, height - 50)), and every other node names as
    parent the id of a node created before it, which stands at the
    position that id names: the parent links form a tree rooted at the
    seed, with no dangling reference and no cycle. *)
Theorem reachable_forest (width height : float) (s : State) :
  reachable width height s ->
  (nodes s = [] -> resources s = [])
  /\ (forall n, nodes s !! 0%nat = Some n -> seedLike width height n)
  /\ forall i n, nodes s !! S i = Some n ->
       exists p parentNode,
         parent n = Some p /\ (p <= i)%nat
         /\ nodes s !! p = Some parentNode /\ id parentNode = p.
Proof.
  intros R.
  destruct (reachable_numbered_forest width height s R) as (W & F).
  split; [exact (reachable_unmounted width height s R)|]. split.
  - intros n Hn. exact (F 0%nat n Hn).
  - intros i n Hn. destruct (F (S i) n Hn) as (p & Hp & Hlt).
    assert (Hl : (p < length (nodes s))%nat).
    { pose proof (lookup_lt_Some _ _ _ Hn). lia. }
    destruct (lookup_lt_is_Some_2 _ _ Hl) as [parentNode Hm].
    exists p, parentNode.
    split; [assumption|]. split; [lia|]. split; [assumption|].
    apply W. assumption.
Qed.

(** X9.  In every reachable state every node's age is between 0 and 21:
    a node is created at age 0 and stops ageing once it has passed 20. *)
Theorem reachable_ages (width height : float) (s : State) :
  reachable width height s -> agesBounded (nodes s).
Proof.
  revert s. apply reachable_ind_nodes.
  - constructor.
  - repeat constructor; simpl; lia.
  - apply tick_agesBounded.
Qed.

(** X10.  In every reachable state no node, updated, branched or grown,
    has a coherence below 0: the seed starts at 1, an update clamps at 0,
    a branch starts at 1, and a growth inherits its parent's. *)
Theorem reachable_coherences (width height : float) (s : State) :
  reachable width height s -> coherencesNotNegative (nodes s).
Proof.
  revert s. apply reachable_ind_nodes.
  - constructor.
  - repeat constructor.
  - apply tick_coherencesNotNegative.
Qed.

Lemma tick_inert (s : State) :
  Forall (fun n => (20 < age n)%Z) (nodes s) ->
  nodes (tick s) = nodes s /\ random (tick s) = random s.
Proof.
  intros H. unfold tick, updateNodes. simpl.
  rewrite forEachFrom_inert by assumption. simpl.
  rewrite app_nil_r. split; reflexivity.
Qed.

(** X11.  Once every node is older than 20 the simulation has stopped:
    any number of further ticks leaves the node list as it is and calls
    [Math.random] not once; only the tick counter advances. *)
Theorem all_inert_is_final (s : State) (k : nat) :
  Forall (fun n => (20 < age n)%Z) (nodes s) ->
  nodes (ticks k s) = nodes s /\ random (ticks k s) = random s
  /\ time (ticks k s) = (time s + k)%nat.
Proof.
  intros H. induction k as [|k (IH1 & IH2 & IH3)].
  - simpl. repeat split. lia.
  - rewrite ticks_succ.
    destruct (tick_inert (ticks k s)) as [E1 E2]; [rewrite IH1; exact H|].
    rewrite E1, E2. split; [assumption|]. split; [assumption|].
    unfold tick. destruct (updateNodes _ _ _). simpl. lia.
Qed.

(** X12.  While 50 or more nodes of the list are younger than 15 the
    growth block pushes nothing, whatever the draws: a tick then adds
    exactly one node per node whose branching block fires. *)
Theorem growth_cap (s : State) :
  (50 <= activeNodeCount (nodes s))%nat ->
  (forall node st,
     nodesToAdd (growthBlock (resources s) (nodes s) node st)
     = nodesToAdd st)
  /\ length (nodes (tick s))
     = (length (nodes s)
        + length (List.filter (branchFires (resources s) (nodes s))
                    (nodes s)))%nat.
Proof.
  intros H. split.
  - intros node st. rewrite growthBlock_nodesToAdd.
    unfold growthFires. rewrite growthEligible_capped by assumption.
    apply app_nil_r.
  - unfold tick, updateNodes. simpl.
    set (st0 := mkTickState (nodes s) [] (random s)).
    rewrite length_app.
    rewrite (forEachFrom_newNodes (resources s) (nodes s) (nodes s) [] st0)
      by reflexivity.
    rewrite length_map. f_equal.
    apply (forEachFrom_capped (resources s) (nodes s) (nodes s) 0 st0 H).
Qed.

(** X13.  A tick consumes one draw of [Math.random] for every node whose
    branching block fires and one for every node of age at most 20 that
    meets the growth guard up to the draw, and no other: the sequence of
    draws is left as it is and its cursor advances by that count. *)
Theorem tick_draws (s : State) :
  draws (random (tick s)) = draws (random s)
  /\ cursor (random (tick s))
     = (cursor (random s)
        + length (List.filter (branchFires (resources s) (nodes s))
                    (nodes s))
        + length (List.filter (drawsForGrowth (nodes s)) (nodes s)))%nat.
Proof.
  unfold tick, updateNodes. simpl. split.
  - apply forEachFrom_draws.
  - apply forEachFrom_cursor.
Qed.

Lemma tick_fieldsCurrent (s : State) :
  fieldsCurrent (resources s) (nodes s) ->
  fieldsCurrent (resources (tick s)) (nodes (tick s)).
Proof.
  rewrite tick_resources. apply tick_Forall.
  - intros n Hn. unfold settledNode.
    destruct (20 <? age n)%Z; [exact Hn|]. intros _.
    unfold updatedNode.
    destruct (branchCondition _ _ _); split; reflexivity.
  - intros m c _ Hp Hc. apply pushedBy_fields in Hp as (E & _).
    rewrite E in Hc. lia.
Qed.

(** X14.  In every reachable state a node that has been updated at least
    once (age above 0) carries the energy and the spatial complexity of
    its own position under the resources of the state, also after it has
    gone inert; so each of the two stored fields is then NaN or within
    [0.1, 1]. *)
Theorem reachable_fields_current (width height : float) (s : State)
    (n : PlantNode) :
  reachable width height s -> In n (nodes s) -> (0 < age n)%Z ->
  (energy n = calculateEnergy (resources s) (position n)
   /\ spatialComplexity n
      = calculateSpatialComplexity (resources s) (position n))
  /\ (is_nan (energy n) = false ->
      (0.1 <=? energy n) = true /\ (energy n <=? 1.0) = true)
  /\ (is_nan (spatialComplexity n) = false ->
      (0.1 <=? spatialComplexity n) = true
      /\ (spatialComplexity n <=? 1.0) = true).
Proof.
  intros R Hin Hage.
  assert (F : fieldsCurrent (resources s) (nodes s)).
  { clear n Hin Hage.
    induction R as [g|newResources g|s _ IH|s b _ IH].
    - constructor.
    - repeat constructor; simpl in *; lia.
    - unfold timerEffect. destruct (paused s); [assumption|].
      apply tick_fieldsCurrent, IH.
    - exact IH. }
  unfold fieldsCurrent in F. rewrite Forall_forall in F.
  apply list_elem_of_In in Hin.
  destruct (F n Hin Hage) as [E1 E2]. split; [split; assumption|].
  assert (B : forall v, is_nan (clamp v) = false ->
                (0.1 <=? clamp v) = true /\ (clamp v <=? 1.0) = true).
  { intros v Hv. apply clamp_bounds.
    destruct (is_nan v) eqn:N; [|reflexivity].
    rewrite (clamp_nan v N) in Hv. discriminate. }
  rewrite E1, E2. split; apply B.
Qed.

End TickExtras.

Lemma reachable_forest_witness :
  (nodes Scenario.young = [] -> resources Scenario.young = [])
  /\ forall n, nodes Scenario.young !! 0%nat = Some n ->
       seedLike 800 600 n.
Proof.
  destruct (reachable_forest 800 600 Scenario.young) as (H1 & H2 & _).
  - unfold Scenario.young.
    apply reachable_ticks; [apply reachable_init | reflexivity].
  - split; assumption.
Defined.

Lemma reachable_ages_witness : agesBounded (nodes Scenario.young).
Proof.
  apply (reachable_ages 800 600 Scenario.young).
  unfold Scenario.young.
    apply reachable_ticks; [apply reachable_init | reflexivity].
Defined.

Lemma reachable_coherences_witness :
  coherencesNotNegative (nodes Scenario.young).
Proof.
  apply (reachable_coherences 800 600 Scenario.young).
  unfold Scenario.young.
    apply reachable_ticks; [apply reachable_init | reflexivity].
Defined.

Lemma all_inert_is_final_witness :
  nodes (ticks 5 Scenario.settled) = nodes Scenario.settled
  /\ random (ticks 5 Scenario.settled) = random Scenario.settled
  /\ time (ticks 5 Scenario.settled) = (time Scenario.settled + 5)%nat.
Proof.
  apply (all_inert_is_final Scenario.settled 5).
  repeat constructor.
Defined.

Lemma growth_cap_witness :
  length (nodes (tick Scenario.crowd))
  = (length (nodes Scenario.crowd)
     + length (List.filter
                 (branchFires (resources Scenario.crowd)
                    (nodes Scenario.crowd))
                 (nodes Scenario.crowd)))%nat.
Proof.
  apply (growth_cap Scenario.crowd).
  apply Nat.leb_le. vm_compute. reflexivity.
Defined.


Lemma appended_nodes_witness :
  exists i m, nodes Scenario.calm !! i = Some m /\ (age m <= 20)%Z
    /\ age Scenario.calmSprout = 0%Z
    /\ parent Scenario.calmSprout = Some (id m)
    /\ energy Scenario.calmSprout
       = calculateEnergy (resources Scenario.calm) (position m)
    /\ spatialComplexity Scenario.calmSprout
       = calculateSpatialComplexity (resources Scenario.calm) (position m)
    /\ ((branchCondition (resources Scenario.calm) (nodes Scenario.calm) m
         = true
         /\ coherence Scenario.calmSprout = 1.0
         /\ distortion Scenario.calmSprout = 0.0
         /\ temporalComplexity Scenario.calmSprout = temporalComplexity m)
        \/ (((0.2 <? coherence m) = true
             /\ (age m < 15)%Z
             /\ (activeNodeCount (nodes Scenario.calm) < 50)%nat
             /\ (0.5 <? fst (Math_random
                               (entropy (atGrowthBlock Scenario.calm i m))))
                = true)
            /\ coherence Scenario.calmSprout = coherence m
            /\ distortion Scenario.calmSprout = distortion m
            /\ temporalComplexity Scenario.calmSprout
               = temporalComplexity m
                 + temporalChange (resources Scenario.calm) m)).
Proof.
  apply (appended_nodes Scenario.calm 1 Scenario.calmSprout).
  - vm_compute. reflexivity.
  - simpl. lia.
Defined.

Lemma reachable_fields_current_witness :
  (energy Scenario.tended
   = calculateEnergy (resources (tick Sample.fresh))
       (position Scenario.tended)
   /\ spatialComplexity Scenario.tended
      = calculateSpatialComplexity (resources (tick Sample.fresh))
          (position Scenario.tended))
  /\ (is_nan (energy Scenario.tended) = false ->
      (0.1 <=? energy Scenario.tended) = true
      /\ (energy Scenario.tended <=? 1.0) = true)
  /\ (is_nan (spatialComplexity Scenario.tended) = false ->
      (0.1 <=? spatialComplexity Scenario.tended) = true
      /\ (spatialComplexity Scenario.tended <=? 1.0) = true).
Proof.
  apply (reachable_fields_current 800 600 (tick Sample.fresh)).
  - apply (reachable_timer 800 600 Sample.fresh), reachable_init.
  - left. vm_compute. reflexivity.
  - vm_compute. reflexivity.
Defined.

(** ** The paths of reachable states *)

Section PathExtras.

Variable Number_toString : float -> string.

Lemma find_numbered (l : list PlantNode) : forall k,
  (forall i n, l !! i = Some n -> id n = (k + i)%nat) ->
  forall p m, l !! p = Some m ->
  List.find (fun n => (id n =? k + p)%nat) l = Some m.
Proof.
  induction l as [|a l IH]; intros k W p m Hp; [discriminate|].
  destruct p as [|p]; simpl in *.
  - injection Hp as ->. rewrite (W 0%nat m eq_refl).
    rewrite Nat.eqb_refl. reflexivity.
  - pose proof (W 0%nat a eq_refl) as Ea.
    replace (id a =? k + S p)%nat with false
      by (symmetry; apply Nat.eqb_neq; lia).
    replace (k + S p)%nat with (S k + p)%nat by lia.
    apply IH; [|assumption].
    intros i n Hi. rewrite (W (S i) n Hi). lia.
Qed.

Lemma findNode_numbered (l : list PlantNode) p m :
  wellNumbered l -> l !! p = Some m -> findNode l p = Some m.
Proof.
  intros W H. unfold findNode.
  apply (find_numbered l 0); [exact W|exact H].
Qed.

(** X15.  The derived paths hold no entry under an id exactly when no
    node of the list has that id or no node names it as parent: a node
    without parent, or whose parent id is missing from the list, adds
    nothing, and every entry belongs to a node of the list that has a
    child. *)
Theorem paths_absent (nodes : list PlantNode) (wanted : nat) :
  (pathOf (derivePaths Number_toString nodes) wanted = None
   <-> findNode nodes wanted = None \/ childrenAmong nodes wanted = [])
  /\ forall e, In e (derivePaths Number_toString nodes) ->
       findNode nodes (pathId e) <> None
       /\ childrenAmong nodes (pathId e) <> [].
Proof.
  assert (A : forall q,
            pathOf (derivePaths Number_toString nodes) q = None
            <-> findNode nodes q = None \/ childrenAmong nodes q = []).
  { intros q.
    destruct (derivePaths_describes Number_toString nodes q) as [-> _].
    unfold expectedPath.
    destruct (findNode nodes q); [|tauto].
    destruct (childrenAmong nodes q); [tauto|].
    split; [discriminate|intros [H|H]; discriminate]. }
  split; [apply A|].
  intros e He.
  assert (N : pathOf (derivePaths Number_toString nodes) (pathId e) <> None).
  { unfold pathOf.
    destruct (List.find _ _) eqn:F; [discriminate|].
    apply (find_none _ _ F) in He. rewrite Nat.eqb_refl in He. discriminate. }
  rewrite A in N. split; intros H; apply N; tauto.
Qed.


End PathExtras.


(** ** The resources of the initialising effect *)

Lemma trellis_length (fuel : nat) : forall width height row,
  (length (trellis fuel width height row) <= 3 * fuel)%nat.
Proof.
  induction fuel as [|fuel IH]; intros width height row; simpl; [lia|].
  destruct (row <=? height * 0.8333); simpl; [|lia].
  specialize (IH width height (row + height * 0.0333)). lia.
Qed.

Lemma filter_onlySupports (f : ResourcePoint -> bool) rs :
  (forall r, rtype r = support -> f r = false) ->
  onlySupports rs -> List.filter f rs = [].
Proof.
  intros Hf. induction 1 as [|r rs Hr _ IH]; simpl; [reflexivity|].
  rewrite (Hf r Hr). exact IH.
Qed.

(** X17.  Whatever the canvas and however many rounds the trellis loop
    makes, the resources of the initialising effect hold exactly one
    light, of intensity 1 at (0.875 width, 0.2 height), and exactly two
    obstacles; everything after the nine fixed resources is a support of
    intensity 0.6, three per round. *)
Theorem newResources_kinds (fuel : nat) (width height : float) :
  List.filter isLight (newResources fuel width height)
  = [mkResourcePoint (mkVector2D (width * 0.875) (height * 0.2)) 1.0 light]
  /\ length (List.filter isObstacle (newResources fuel width height)) = 2%nat
  /\ (9 <= length (newResources fuel width height) <= 9 + 3 * fuel)%nat
  /\ onlySupports (skipn 9 (newResources fuel width height))
  /\ Forall (fun r => intensity r = 0.6)
       (skipn 9 (newResources fuel width height)).
Proof.
  unfold newResources. rewrite !List.filter_app.
  pose proof (trellis_onlySupports fuel width height (height * 0.333)) as T.
  assert (L : forall r, rtype r = support -> isLight r = false)
    by (intros r Hr; unfold isLight; rewrite Hr; reflexivity).
  assert (O : forall r, rtype r = support -> isObstacle r = false)
    by (intros r Hr; unfold isObstacle; rewrite Hr; reflexivity).
  rewrite (filter_onlySupports _ _ L T), (filter_onlySupports _ _ O T).
  split; [reflexivity|]. split; [reflexivity|].
  split.
  { rewrite length_app.
    pose proof (trellis_length fuel width height (height * 0.333)).
    simpl. lia. }
  change (skipn 9 (fixedResources width height ++ ?t)) with t.
  split; [exact T|].
  generalize (height * 0.333). clear T.
  induction fuel as [|fuel IH]; intros row; simpl; [constructor|].
  destruct (row <=? height * 0.8333); [|constructor].
  repeat (constructor; [reflexivity|]). apply IH.
Qed.

Lemma trellis_stuck (fuel : nat) (width height row : float) :
  (row <=? height * 0.8333) = true -> row + height * 0.0333 = row ->
  length (trellis fuel width height row) = (3 * fuel)%nat.
Proof.
  intros Htest Hstep. induction fuel as [|fuel IH]; simpl; [reflexivity|].
  rewrite Htest, Hstep. simpl. rewrite IH. lia.
Qed.

(** X18.  For a canvas of height 0 the test of the trellis loop never
    fails, since the row stays 0 and the step is 0, and for an infinite
    height neither: the loop uses up every bound on its rounds, so the
    initialising effect does not return.  For a height that is NaN the
    test fails at once and the loop adds nothing. *)
Theorem trellis_edge_heights (fuel : nat) (width : float) :
  length (trellis fuel width 0 (0 * 0.333)) = (3 * fuel)%nat
  /\ length (trellis fuel width infinity (infinity * 0.333))
     = (3 * fuel)%nat
  /\ trellis fuel width nan (nan * 0.333) = [].
Proof.
  split; [|split].
  - apply trellis_stuck; reflexivity.
  - apply trellis_stuck; reflexivity.
  - destruct fuel; reflexivity.
Qed.

(** ** The branching block *)

(** X19.  In the round of a node that is not skipped, the branching
    block pushes a child of that node onto [nodesToAdd] if and only if
    the distortion the node had before the update exceeds 2.5, the
    sampled energy exceeds 0.3, the age before the update exceeds 5, and
    fewer than 3 nodes of the previous list are within 20 units, the node
    itself not excluded from the count.  With 3 or more nodes in range,
    whether the node is counted or only the others are, nothing is
    pushed. *)
Theorem branching_guard {M : MathLib} (s : State) (node : PlantNode)
    (index : nat) (st : TickState) :
  (age node <= 20)%Z ->
  let before := setNewNode index (baseUpdate (resources s) node) st in
  let after := branchBlock (resources s) (nodes s) node index before in
  processNode (resources s) (nodes s) st node index
  = growthBlock (resources s) (nodes s) node after
  /\ ((exists child, nodesToAdd after = nodesToAdd st ++ [child]
                     /\ parent child = Some (id node))
      <-> ((D_CRITICAL <? distortion node) = true
           /\ (0.3 <? calculateEnergy (resources s) (position node)) = true
           /\ (5 < age node)%Z
           /\ (length (nearbyNodes (nodes s) (position node)) < 3)%nat))
  /\ ((3 <= length (nearbyNodes (nodes s) (position node)))%nat ->
      nodesToAdd after = nodesToAdd st)
  /\ ((3 <= length (nearbyOthers (nodes s) index (position node)))%nat ->
      nodesToAdd after = nodesToAdd st).
Proof.
  intros Hage before after.
  assert (Hadd : nodesToAdd after
                 = nodesToAdd st ++
                   (if branchCondition (resources s) (nodes s) node
                    then [branchChild (resources s) (nodes s) node before]
                    else [])).
  { subst after. rewrite branchBlock_nodesToAdd. reflexivity. }
  assert (Hno : (3 <= length (nearbyNodes (nodes s) (position node)))%nat ->
                nodesToAdd after = nodesToAdd st).
  { intros H3. rewrite Hadd.
    destruct (branchCondition (resources s) (nodes s) node) eqn:B;
      [|apply app_nil_r].
    apply branchCondition_spec in B. lia. }
  split.
  { unfold processNode. apply Z.ltb_ge in Hage. rewrite Hage. reflexivity. }
  split; [|split; [exact Hno|]].
  - rewrite <- branchCondition_spec, Hadd. split.
    + intros (child & Hc & _). eapply snoc_or_same. exists child. exact Hc.
    + intros ->. eexists. split; reflexivity.
  - intros H3. apply Hno. unfold nearbyNodes.
    etransitivity; [exact H3|]. apply filter_delete_length.
Qed.

Lemma branching_guard_witness :
  exists child,
    nodesToAdd
      (branchBlock (resources Sample.ripe)
         (nodes Sample.ripe) Sample.strained 0
         (setNewNode 0 (baseUpdate (resources Sample.ripe) Sample.strained)
            (mkTickState (nodes Sample.ripe) [] (random Sample.ripe))))
    = [] ++ [child]
    /\ parent child = Some (id Sample.strained).
Proof.
  destruct (branching_guard Sample.ripe Sample.strained 0
              (mkTickState (nodes Sample.ripe) [] (random Sample.ripe)))
    as (_ & [_ H] & _).
  - vm_compute. discriminate.
  - apply H. repeat split; vm_compute; try reflexivity. lia.
Defined.

(** On snapshots built by hand the guard differs from a guard that reads
    the distortion after the update and counts the other nodes only.  A
    node of distortion 3 with two other nodes within 20 units does not
    branch, since it is itself the third node in range; and a node whose
    distortion is 2.49 before the update and above 2.5 after it does not
    branch either.  Neither snapshot is a state the hook reaches. *)
Remark branching_guard_reads_snapshot :
  (specBranchCondition Sample.resources
     (nodes Sample.crowded) Sample.strained 0 = true
   /\ branchCondition Sample.resources (nodes Sample.crowded) Sample.strained
      = false
   /\ length (nodes (tick Sample.crowded)) = 3%nat)
  /\ (specBranchCondition Sample.resources
        (nodes Sample.alone) Sample.rising 0 = true
      /\ branchCondition Sample.resources (nodes Sample.alone) Sample.rising
         = false
      /\ length (nodes (tick Sample.alone)) = 1%nat).
Proof.
  vm_compute. repeat split.
Qed.
